(** * Sales dashboard: the filtering and aggregation pipeline of streamlit_app.py

    The script is a straight line: load a CSV into a data frame, read the
    filter widgets, select the rows that pass the filter, compute the metrics,
    the moving average and the CSV export.  This development embeds each of
    these steps as a function on lists of rows and proves the properties the
    specification states about them.

    Conventions of the embedding.
    - A data frame is the list of its rows, in index order; a column (a pandas
      Series) is the list obtained by projecting one field.
    - The date column holds calendar dates (year, month, day).  pd.to_datetime
      sends a calendar date to the timestamp of its midnight, which preserves
      the order, so the comparisons of the script are comparisons of dates.
    - category and region are text columns.  sales and profit are int64
      columns: their cells fit the 64-bit range when they are read, and the
      integer sums of the script ([sum], the grouped sums) wrap around as
      64-bit additions do.
    - Every quotient the script takes is a float, modelled by an exact
      rational or one of the three special values of IEEE arithmetic; the
      rounding of floating-point arithmetic is not modelled.
    - [read_csv] gives every column the type it infers from its cells: all
      integer numerals make an integer column, a cell that is certainly text
      makes a column of text; other columns (floats, booleans) are outside
      the embedding, as is the splitting of a large file into chunks.
    - [sort_values] is embedded by a stable sort; the order the script gives
      rows of the same date is not modelled.
    - pandas and streamlit calls are embedded by their documented behaviour
      under the arguments the script passes: boolean masks, [isin], [unique],
      [sum], [mean], [std], [sort_values], [rolling(window).mean()],
      [groupby], [round], [to_csv], [read_csv], [date_input], [multiselect],
      [slider].  The run converts each column where the script first uses
      it, so it fails at the first line that fails in the script.
    - Charts and the correlation matrix only display the filtered view; they
      are not embedded. *)

From Stdlib Require Import List String Ascii ZArith QArith Bool Lia Arith.
From Stdlib Require Import Permutation Sorted DecimalString DecimalZ DecimalPos Lqa.
Import ListNotations.

Local Open Scope Z_scope.

(** ** Calendar dates *)

Record Date := mkDate { year : Z; month : Z; day : Z }.

Definition date_compare (a b : Date) : comparison :=
  match year a ?= year b with
  | Eq => match month a ?= month b with
          | Eq => day a ?= day b
          | c => c
          end
  | c => c
  end.

(** [a <= b] and [a >= b] on timestamps, as booleans. *)
Definition date_leb (a b : Date) : bool :=
  match date_compare a b with Gt => false | _ => true end.

Definition date_geb (a b : Date) : bool := date_leb b a.

(** The chronological order, stated independently of [date_compare]. *)
Definition date_le (a b : Date) : Prop :=
  year a < year b \/
  (year a = year b /\ (month a < month b \/ (month a = month b /\ day a <= day b))).

(** ** Rows and data frames *)

Record Row := mkRow {
  date : Date;
  category : string;
  region : string;
  sales : Z;
  profit : Z
}.

Definition DataFrame := list Row.

(** ** Boolean Series: comparison with a scalar, [isin], [&], mask indexing *)

(** [col >= bound], element by element. *)
Definition series_ge (col : list Date) (bound : Date) : list bool :=
  map (fun d => date_geb d bound) col.

(** [col <= bound], element by element. *)
Definition series_le (col : list Date) (bound : Date) : list bool :=
  map (fun d => date_leb d bound) col.

(** [x in values] for a list of selected values. *)
Definition member (x : string) (values : list string) : bool :=
  existsb (String.eqb x) values.

(** [col.isin(values)]. *)
Definition isin (col : list string) (values : list string) : list bool :=
  map (fun x => member x values) col.

(** [a & b] on two aligned boolean Series. *)
Fixpoint series_and (a b : list bool) : list bool :=
  match a, b with
  | x :: a', y :: b' => (x && y) :: series_and a' b'
  | _, _ => []
  end.

(** [df[mask]]: the rows whose mask entry is True, in index order. *)
Fixpoint boolean_index (df : DataFrame) (mask : list bool) : DataFrame :=
  match df, mask with
  | r :: df', b :: mask' =>
      if b then r :: boolean_index df' mask' else boolean_index df' mask'
  | _, _ => []
  end.

(** ** The filtering step (lines 68-80)

    [date_range] is what the date widget returned: a tuple of zero, one or two
    dates.  With exactly two the mask has four conjuncts; otherwise only the
    category and region conjuncts are used. *)
Definition mask (df : DataFrame) (start stop : Date)
    (categories regions : list string) : list bool :=
  series_and
    (series_and
       (series_and (series_ge (map date df) start)
                   (series_le (map date df) stop))
       (isin (map category df) categories))
    (isin (map region df) regions).

Definition filtered_df (df : DataFrame) (date_range : list Date)
    (categories regions : list string) : DataFrame :=
  match date_range with
  | [start; stop] => boolean_index df (mask df start stop categories regions)
  | _ =>
      boolean_index df
        (series_and (isin (map category df) categories)
                    (isin (map region df) regions))
  end.

(** ** Default widget values (lines 46-65) *)

(** [Series.unique()]: the distinct values in order of first appearance. *)
Fixpoint unique (col : list string) : list string :=
  match col with
  | [] => []
  | x :: col' => x :: filter (fun y => negb (String.eqb y x)) (unique col')
  end.

(** [Series.min()] and [Series.max()] of the date column; [None] is NaT, the
    result on an empty column. *)
Definition date_min2 (a b : Date) : Date := if date_leb a b then a else b.
Definition date_max2 (a b : Date) : Date := if date_leb a b then b else a.

Definition series_min (col : list Date) : option Date :=
  match col with
  | [] => None
  | d :: col' => Some (fold_left date_min2 col' d)
  end.

Definition series_max (col : list Date) : option Date :=
  match col with
  | [] => None
  | d :: col' => Some (fold_left date_max2 col' d)
  end.

(** ** Subsequences *)

Inductive subseq {A : Type} : list A -> list A -> Prop :=
| subseq_nil : subseq [] []
| subseq_skip x l1 l2 : subseq l1 l2 -> subseq l1 (x :: l2)
| subseq_keep x l1 l2 : subseq l1 l2 -> subseq (x :: l1) (x :: l2).

Definition Row_eq_dec (a b : Row) : {a = b} + {a <> b}.
Proof. repeat decide equality. Defined.

(** The four-conjunct predicate on one row, as the mask computes it. *)
Definition passes (start stop : Date) (categories regions : list string)
    (r : Row) : bool :=
  date_geb (date r) start && date_leb (date r) stop
  && member (category r) categories && member (region r) regions.

(** ** Example data: the scenario of the specification *)

Definition jan (d : Z) : Date := mkDate 2024 1 d.

Definition scenario : DataFrame :=
  [ mkRow (jan 1) "A" "East" 100 10;
    mkRow (jan 2) "A" "East" 200 20;
    mkRow (jan 3) "B" "West" 50 (-5) ].


Definition scenario_csv : string :=
  "date,category,region,sales,profit
2024-01-01,A,East,100,10
2024-01-02,A,East,200,20
2024-01-03,B,West,50,-5
".

Definition header_only_csv : string :=
  "date,category,region,sales,profit
".

Definition no_date_csv : string :=
  "day,category,region,sales,profit
2024-01-01,A,East,100,10
".

(** A file whose categories look like numbers, and the view of its first
    two rows. *)
Definition numeric_categories : DataFrame :=
  [ mkRow (jan 1) "01" "East" 100 10;
    mkRow (jan 2) "1" "East" 200 20;
    mkRow (jan 3) "A" "West" 50 (-5) ].

Definition numeric_view : DataFrame :=
  [ mkRow (jan 1) "01" "East" 100 10;
    mkRow (jan 2) "1" "East" 200 20 ].

Definition numeric_categories_csv : string :=
  "date,category,region,sales,profit
2024-01-01,01,East,100,10
2024-01-02,1,East,200,20
2024-01-03,A,West,50,-5
".

Definition numeric_view_csv : string :=
  "date,category,region,sales,profit
2024-01-01,01,East,100,10
2024-01-02,1,East,200,20
".

(** ** Floats

    A float is an exact rational or one of the IEEE special values.  Division
    of numpy scalars never raises: a zero divisor gives an infinity or NaN. *)

Inductive float64 :=
| Finite (q : Q)
| PosInf
| NegInf
| NaN.

(** [a / b] on two integer scalars (true division, the result is a float). *)
Definition true_divide (a b : Z) : float64 :=
  if b =? 0 then
    if a =? 0 then NaN else if 0 <? a then PosInf else NegInf
  else Finite (Qred (inject_Z a / inject_Z b)).

(** [x * k] for a float [x] and an integer literal [k], as in [... * 100]. *)
Definition mul_int (x : float64) (k : Z) : float64 :=
  match x with
  | Finite q => Finite (Qred (q * inject_Z k))
  | PosInf => if k =? 0 then NaN else if 0 <? k then PosInf else NegInf
  | NegInf => if k =? 0 then NaN else if 0 <? k then NegInf else PosInf
  | NaN => NaN
  end.

(** The result of [Series.std()]: NaN, or the square root of the sample
    variance, kept as its radicand. *)
Inductive stdev :=
| StdNaN
| SqrtOf (variance : Q).

(** ** Metrics (lines 85-110) *)

(** The integer columns are int64 columns. *)
Definition int64_min : Z := - 2 ^ 63.
Definition int64_max : Z := 2 ^ 63 - 1.

Definition in_int64 (z : Z) : bool := (int64_min <=? z) && (z <=? int64_max).

(** The 64-bit signed integer an overflowing result wraps around to. *)
Definition wrap64 (z : Z) : Z := (z + 2 ^ 63) mod 2 ^ 64 - 2 ^ 63.

(** [Series.sum()] on an int64 column: 64-bit additions, which wrap around
    in silence. *)
Definition series_sum (col : list Z) : Z :=
  fold_left (fun acc x => wrap64 (acc + x)) col 0.

(** The sum of a column as a mathematical integer.  The float reductions
    ([mean], [std], [rolling]) turn the values into floats before adding, so
    what they accumulate is this sum (rounding aside). *)
Definition exact_sum (col : list Z) : Z := fold_left Z.add col 0.

(** [Series.mean()]: the sum over the count, NaN when the count is zero. *)
Definition series_mean (col : list Z) : float64 :=
  match List.length col with
  | O => NaN
  | S _ => Finite (Qred (inject_Z (exact_sum col)
                         / inject_Z (Z.of_nat (List.length col))))
  end.

(** [Series.std()], with one delta degree of freedom: NaN when the count is
    at most one, otherwise the root of the summed squared deviations from the
    mean over [count - 1]. *)
Definition series_std (col : list Z) : stdev :=
  match List.length col with
  | O => StdNaN
  | S O => StdNaN
  | S (S _) =>
      let count := inject_Z (Z.of_nat (List.length col)) in
      let avg := (inject_Z (exact_sum col) / count)%Q in
      let sqr := fold_left (fun acc x => acc + (avg - inject_Z x) * (avg - inject_Z x))%Q
                           col (0%Q) in
      SqrtOf (Qred (sqr / (count - 1)))
  end.

Definition total_sales (filtered : DataFrame) : Z := series_sum (map sales filtered).
Definition total_profit (filtered : DataFrame) : Z := series_sum (map profit filtered).
Definition mean_sales (filtered : DataFrame) : float64 := series_mean (map sales filtered).
Definition mean_profit (filtered : DataFrame) : float64 := series_mean (map profit filtered).
Definition std_sales (filtered : DataFrame) : stdev := series_std (map sales filtered).
Definition std_profit (filtered : DataFrame) : stdev := series_std (map profit filtered).

(** [profit.sum() / sales.sum() * 100], with no test on the divisor. *)
Definition profit_rate (filtered : DataFrame) : float64 :=
  mul_int (true_divide (total_profit filtered) (total_sales filtered)) 100.

(** The values shown by the four metric widgets. *)
Record Metrics := mkMetrics {
  m_total_sales : Z;
  m_records : nat;
  m_mean_sales : float64;
  m_std_sales : stdev;
  m_total_profit : Z;
  m_mean_profit : float64;
  m_profit_rate : float64
}.

Definition metrics (filtered : DataFrame) : Metrics :=
  mkMetrics (total_sales filtered) (List.length filtered)
            (mean_sales filtered) (std_sales filtered)
            (total_profit filtered) (mean_profit filtered)
            (profit_rate filtered).

(** ** Moving average (lines 132-135) *)

(** [sort_values('date')]: rows in ascending date order.  Insertion from the
    right keeps rows of equal date in their original order, where the sort of
    the script (quicksort by default) may leave them in another order; the
    properties below use only that the result is a sorted permutation, or
    take rows of distinct dates. *)
Fixpoint insert_by_date (r : Row) (sorted : DataFrame) : DataFrame :=
  match sorted with
  | [] => [r]
  | y :: sorted' =>
      if date_leb (date r) (date y) then r :: sorted
      else y :: insert_by_date r sorted'
  end.

Fixpoint sort_values (df : DataFrame) : DataFrame :=
  match df with
  | [] => []
  | r :: df' => insert_by_date r (sort_values df')
  end.

(** The value of a window holding [nobs] observations of sum [sum_x], with
    [min_periods] equal to the window size. *)
Definition calc_mean (minp nobs : nat) (sum_x : Z) : float64 :=
  if (minp <=? nobs)%nat && (0 <? nobs)%nat
  then Finite (Qred (inject_Z sum_x / inject_Z (Z.of_nat nobs)))
  else NaN.

(** The sliding pass of [rolling(window).mean()].  [lead] is the part of the
    column not yet read, [lag] starts at the oldest value still inside the
    window, [i] is the position of the head of [lead].  Each step drops the
    oldest value once the window is full, adds the new value, and emits the mean
    of the window or NaN while it holds fewer than [window] values. *)
Fixpoint roll_mean (window : nat) (lag lead : list Z) (i : nat)
    (sum_x : Z) (nobs : nat) : list float64 :=
  match lead with
  | [] => []
  | x :: lead' =>
      let '(lag1, sum1, nobs1) :=
        if (window <=? i)%nat then
          match lag with
          | old :: lag' => (lag', sum_x - old, Nat.pred nobs)
          | [] => (lag, sum_x, nobs)
          end
        else (lag, sum_x, nobs) in
      let sum2 := sum1 + x in
      let nobs2 := S nobs1 in
      calc_mean window nobs2 sum2
        :: roll_mean window lag1 lead' (S i) sum2 nobs2
  end.

(** [col.rolling(window=window).mean()]; a window of size zero holds no
    value and gives NaN everywhere. *)
Definition rolling_mean (window : nat) (col : list Z) : list float64 :=
  match window with
  | O => map (fun _ => NaN) col
  | S _ => roll_mean window col col 0 0 0
  end.

(** The [moving_avg] column of [filtered_df_sorted]. *)
Definition moving_avg (window : nat) (filtered : DataFrame) : list float64 :=
  rolling_mean window (map sales (sort_values filtered)).

(** ** Outcomes of a script run

    A step finishes with a value, halts the run by [st.stop()], or raises.
    [OutOfModel] marks an input the embedding does not cover (float or missing
    cells, dates that are not written year-month-day, ragged rows); nothing is
    claimed about the script on such an input. *)

Inductive exn :=
| EmptyDataError
| ParserError
| KeyError (column : string)
| ValueError.

Inductive outcome (A : Type) :=
| Done (a : A)
| Stopped
| Raised (e : exn)
| OutOfModel.

Arguments Done {A} a.
Arguments Stopped {A}.
Arguments Raised {A} e.
Arguments OutOfModel {A}.

Definition bind {A B : Type} (m : outcome A) (k : A -> outcome B) : outcome B :=
  match m with
  | Done a => k a
  | Stopped => Stopped
  | Raised e => Raised e
  | OutOfModel => OutOfModel
  end.

Notation "x <- m ;; k" := (bind m (fun x => k))
  (at level 61, m at next level, right associativity).

(** All rows of a list through a fallible step, in order. *)
Fixpoint traverse {A B : Type} (f : A -> outcome B) (l : list A)
    : outcome (list B) :=
  match l with
  | [] => Done []
  | x :: l' => y <- f x ;; ys <- traverse f l' ;; Done (y :: ys)
  end.

(** ** CSV text

    The dialect is the default one of [to_csv] and [read_csv]: comma
    delimiter, double-quote quoting with doubled quotes inside, minimal
    quoting, line feed after every line. *)

Definition comma : ascii := ","%char.
Definition dquote : ascii := Ascii.ascii_of_nat 34.
Definition LF : ascii := Ascii.ascii_of_nat 10.
Definition CR : ascii := Ascii.ascii_of_nat 13.
Definition space : ascii := " "%char.
Definition tab : ascii := Ascii.ascii_of_nat 9.

(** The characters the writer protects: the delimiter, the quote and the
    line terminator. *)
Definition needs_quotes (c : ascii) : bool :=
  Ascii.eqb c comma || Ascii.eqb c dquote || Ascii.eqb c LF.

(** The characters the reader acts on outside quotes; a carriage return
    ends a line like a line feed does. *)
Definition is_special (c : ascii) : bool :=
  Ascii.eqb c comma || Ascii.eqb c dquote || Ascii.eqb c LF || Ascii.eqb c CR.

Definition has_cr (cell : string) : bool :=
  existsb (fun c => Ascii.eqb c CR) (list_ascii_of_string cell).

(** *** Writing *)

Fixpoint double_quotes (cs : list ascii) : list ascii :=
  match cs with
  | [] => []
  | c :: cs' =>
      if Ascii.eqb c dquote then dquote :: dquote :: double_quotes cs'
      else c :: double_quotes cs'
  end.

(** A cell is quoted when it holds a character the writer protects. *)
Definition write_cell (cell : string) : list ascii :=
  let cs := list_ascii_of_string cell in
  if existsb needs_quotes cs then dquote :: double_quotes cs ++ [dquote]
  else cs.

(** One line: the cells separated by commas, then the line feed.  (Every
    line written here has five cells; the writer's special form for a line made
    of a single empty cell does not arise.) *)
Fixpoint write_cells (cells : list string) : list ascii :=
  match cells with
  | [] => [LF]
  | [c] => write_cell c ++ [LF]
  | c :: cells' => write_cell c ++ comma :: write_cells cells'
  end.

Definition write_rows (rows : list (list string)) : list ascii :=
  List.concat (map write_cells rows).

(** *** Reading: the tokenizer of the C parser *)

Inductive pstate :=
| START_RECORD
| WHITESPACE_LINE
| START_FIELD
| IN_FIELD
| IN_QUOTED_FIELD
| QUOTE_IN_QUOTED_FIELD
| EAT_CRNL
| EAT_CRNL_NOP.

Definition end_field (field : list ascii) (row : list string) : list string :=
  string_of_list_ascii (rev field) :: row.

Definition end_line (row : list string) (rows : list (list string))
    : list (list string) :=
  rev row :: rows.

(** [field], [row] and [rows] are the characters, cells and lines collected
    so far, newest first.  Empty lines and lines of blanks are skipped; the
    blanks of a line are kept in [field] until a character shows that the line
    is not blank.  [None] is the parser error for an input that ends inside a
    quoted cell. *)
Fixpoint tokenize (st : pstate) (field : list ascii) (row : list string)
    (rows : list (list string)) (input : list ascii)
    : option (list (list string)) :=
  match input with
  | [] =>
      match st with
      | START_RECORD | WHITESPACE_LINE | EAT_CRNL_NOP => Some (rev rows)
      | IN_QUOTED_FIELD => None
      | START_FIELD | IN_FIELD | QUOTE_IN_QUOTED_FIELD =>
          Some (rev (end_line (end_field field row) rows))
      | EAT_CRNL => Some (rev (end_line row rows))
      end
  | c :: rest =>
      let in_field field row rows :=
        if Ascii.eqb c LF then
          tokenize START_RECORD [] [] (end_line (end_field field row) rows) rest
        else if Ascii.eqb c CR then
          tokenize EAT_CRNL [] (end_field field row) rows rest
        else if Ascii.eqb c comma then
          tokenize START_FIELD [] (end_field field row) rows rest
        else tokenize IN_FIELD (c :: field) row rows rest in
      let start_field field row rows :=
        if Ascii.eqb c dquote then tokenize IN_QUOTED_FIELD field row rows rest
        else in_field field row rows in
      let start_record rows :=
        if Ascii.eqb c LF then tokenize START_RECORD [] [] rows rest
        else if Ascii.eqb c CR then tokenize EAT_CRNL_NOP [] [] rows rest
        else if Ascii.eqb c space || Ascii.eqb c tab then
          tokenize WHITESPACE_LINE [c] [] rows rest
        else start_field [] [] rows in
      match st with
      | START_RECORD => start_record rows
      | WHITESPACE_LINE =>
          if Ascii.eqb c LF then tokenize START_RECORD [] [] rows rest
          else if Ascii.eqb c CR then tokenize EAT_CRNL_NOP [] [] rows rest
          else if Ascii.eqb c space || Ascii.eqb c tab then
            tokenize WHITESPACE_LINE (c :: field) row rows rest
          else in_field field row rows
      | START_FIELD => start_field field row rows
      | IN_FIELD => in_field field row rows
      | IN_QUOTED_FIELD =>
          if Ascii.eqb c dquote then
            tokenize QUOTE_IN_QUOTED_FIELD field row rows rest
          else tokenize IN_QUOTED_FIELD (c :: field) row rows rest
      | QUOTE_IN_QUOTED_FIELD =>
          if Ascii.eqb c dquote then
            tokenize IN_QUOTED_FIELD (c :: field) row rows rest
          else in_field field row rows
      | EAT_CRNL =>
          if Ascii.eqb c LF then
            tokenize START_RECORD [] [] (end_line row rows) rest
          else if Ascii.eqb c comma then
            tokenize START_FIELD [] (end_field [] []) (end_line row rows) rest
          else start_record (end_line row rows)
      | EAT_CRNL_NOP =>
          if Ascii.eqb c LF || Ascii.eqb c comma then
            tokenize START_RECORD [] [] rows rest
          else start_record rows
      end
  end.

(** ** Cell formats *)

(** Integers are written and read in decimal. *)
Definition format_int (z : Z) : string := NilZero.string_of_int (Z.to_int z).

(** A cell that is an integer numeral within the 64-bit range. *)
Definition parse_int (cell : string) : option Z :=
  match option_map Z.of_int (NilZero.int_of_string cell) with
  | Some z => if in_int64 z then Some z else None
  | None => None
  end.

Definition digit (n : Z) : ascii := Ascii.ascii_of_N (Z.to_N (48 + n)).

Definition digit_val (c : ascii) : option Z :=
  let n := Z.of_N (Ascii.N_of_ascii c) in
  if (48 <=? n) && (n <=? 57) then Some (n - 48) else None.

Definition num2 (a b : ascii) : option Z :=
  match digit_val a, digit_val b with
  | Some x, Some y => Some (10 * x + y)
  | _, _ => None
  end.

Definition num4 (a b c d : ascii) : option Z :=
  match num2 a b, num2 c d with
  | Some x, Some y => Some (100 * x + y)
  | _, _ => None
  end.

Definition is_leap (y : Z) : bool :=
  (y mod 4 =? 0) && (negb (y mod 100 =? 0) || (y mod 400 =? 0)).

Definition days_in_month (y m : Z) : Z :=
  if (m =? 2) then (if is_leap y then 29 else 28)
  else if (m =? 4) || (m =? 6) || (m =? 9) || (m =? 11) then 30
  else 31.

(** The days a nanosecond timestamp can hold in full. *)
Definition timestamp_min : Date := mkDate 1677 9 22.
Definition timestamp_max : Date := mkDate 2262 4 11.

Definition valid_date (d : Date) : bool :=
  (1 <=? month d) && (month d <=? 12)
  && (1 <=? day d) && (day d <=? days_in_month (year d) (month d))
  && date_leb timestamp_min d && date_leb d timestamp_max.

Definition hyphen : ascii := "-"%char.

(** A date column is written year-month-day, zero padded. *)
Definition format_date (d : Date) : string :=
  string_of_list_ascii
    [ digit (year d / 1000); digit (year d / 100 mod 10);
      digit (year d / 10 mod 10); digit (year d mod 10); hyphen;
      digit (month d / 10); digit (month d mod 10); hyphen;
      digit (day d / 10); digit (day d mod 10) ].

(** [pd.to_datetime] on one cell written year-month-day. *)
Definition parse_date (cell : string) : option Date :=
  match list_ascii_of_string cell with
  | [y1; y2; y3; y4; h1; m1; m2; h2; d1; d2] =>
      if Ascii.eqb h1 hyphen && Ascii.eqb h2 hyphen then
        match num4 y1 y2 y3 y4, num2 m1 m2, num2 d1 d2 with
        | Some y, Some m, Some d =>
            if valid_date (mkDate y m d) then Some (mkDate y m d) else None
        | _, _, _ => None
        end
      else None
  | _ => None
  end.

(** The cells [read_csv] reads as a missing value. *)
Definition na_values : list string :=
  [ ""; "#N/A"; "#N/A N/A"; "#NA"; "-1.#IND"; "-1.#QNAN"; "-NaN"; "-nan";
    "1.#IND"; "1.#QNAN"; "<NA>"; "N/A"; "NA"; "NULL"; "NaN"; "None";
    "n/a"; "nan"; "null" ]%string.

(** A text cell is kept as it is written.  A missing value is outside the
    embedding, and so is a cell holding a carriage return: whether the export
    quotes that character depends on the version of the csv module. *)
Definition parse_text (cell : string) : option string :=
  if member cell na_values || has_cr cell then None else Some cell.

(** ** The loader (lines 28-40) *)

Record RawFrame := mkRaw {
  columns : list string;
  lines : list (list string)
}.

(** [pd.read_csv]: the first line names the columns, every other line is
    one row. *)
Definition read_csv (text : string) : outcome RawFrame :=
  match tokenize START_RECORD [] [] [] (list_ascii_of_string text) with
  | None => Raised ParserError
  | Some [] => Raised EmptyDataError
  | Some (header :: body) =>
      if forallb (fun l => (List.length l =? List.length header)%nat) body
      then Done (mkRaw header body)
      else OutOfModel
  end.

Fixpoint index_of (name : string) (cols : list string) : option nat :=
  match cols with
  | [] => None
  | c :: cols' =>
      if String.eqb c name then Some O else option_map S (index_of name cols')
  end.

(** [df[name]] with its cells read by [parse]; a frame without that column
    raises KeyError. *)
Definition column {A : Type} (parse : string -> option A) (name : string)
    (raw : RawFrame) : outcome (list A) :=
  match index_of name (columns raw) with
  | None => Raised (KeyError name)
  | Some i =>
      traverse (fun l => match nth_error l i with
                         | Some cell => match parse cell with
                                        | Some v => Done v
                                        | None => OutOfModel
                                        end
                         | None => OutOfModel
                         end) (lines raw)
  end.

(** *** The type the reader gives a column

    [read_csv] is called without [dtype]: a column whose cells are all integer
    numerals becomes an integer column, a column with a cell that can be read
    neither as a number nor as a boolean stays a column of text, and an empty
    column is a column of objects.  Any other column (floats, booleans, mixed
    numerals, a column with a missing value) gets a type this embedding does
    not follow. *)

Inductive dtype_column :=
| ObjectColumn (cells : list string)
| Int64Column (values : list Z)
| OtherColumn.

Fixpoint parse_all {A : Type} (parse : string -> option A)
    (cells : list string) : option (list A) :=
  match cells with
  | [] => Some []
  | cell :: cells' =>
      match parse cell, parse_all parse cells' with
      | Some v, Some vs => Some (v :: vs)
      | _, _ => None
      end
  end.

Definition is_blank (c : ascii) : bool :=
  Ascii.eqb c space || Ascii.eqb c tab || Ascii.eqb c LF || Ascii.eqb c CR
  || Ascii.eqb c (Ascii.ascii_of_nat 11) || Ascii.eqb c (Ascii.ascii_of_nat 12).

Definition is_sign (c : ascii) : bool :=
  Ascii.eqb c "+"%char || Ascii.eqb c "-"%char.

Definition is_digit (c : ascii) : bool :=
  match digit_val c with Some _ => true | None => false end.

(** The characters a decimal or floating numeral is made of. *)
Definition numeric_char (c : ascii) : bool :=
  is_digit c || is_sign c || Ascii.eqb c "."%char
  || Ascii.eqb c "e"%char || Ascii.eqb c "E"%char || is_blank c.

Definition lower (c : ascii) : ascii :=
  let n := Ascii.nat_of_ascii c in
  if (65 <=? n)%nat && (n <=? 90)%nat then Ascii.ascii_of_nat (n + 32) else c.

(** The letters of a cell in lower case, blanks and signs left out. *)
Definition word_of (cell : string) : string :=
  string_of_list_ascii
    (map lower (filter (fun c => negb (is_blank c || is_sign c))
                       (list_ascii_of_string cell))).

Definition special_words : list string :=
  [ "inf"; "infinity"; "nan"; "true"; "false" ]%string.

(** A cell the reader can take neither for a number nor for a boolean: it
    holds a character no numeral holds and is none of the words read as an
    infinity, a NaN or a boolean.  (The test errs on the side of numbers: some
    cells it does not accept are text for the reader too.) *)
Definition certainly_text (cell : string) : bool :=
  negb (forallb numeric_char (list_ascii_of_string cell)
        || member (word_of cell) special_words).

Definition infer_dtype (cells : list string) : dtype_column :=
  match cells with
  | [] => ObjectColumn []
  | _ :: _ =>
      match parse_all parse_int cells with
      | Some values => Int64Column values
      | None =>
          if existsb (fun cell => member cell na_values) cells then OtherColumn
          else if existsb certainly_text cells then ObjectColumn cells
          else OtherColumn
      end
  end.

(** The cells under a column name, as written; a frame without that column
    raises KeyError. *)
Definition raw_column (name : string) (raw : RawFrame)
    : outcome (list string) :=
  match index_of name (columns raw) with
  | None => Raised (KeyError name)
  | Some i =>
      traverse (fun l => match nth_error l i with
                         | Some cell => Done cell
                         | None => OutOfModel
                         end) (lines raw)
  end.

(** [df[name]] for a column of text, as [df['category']] and [df['region']]
    are used. *)
Definition text_column (name : string) (raw : RawFrame)
    : outcome (list string) :=
  cells <- raw_column name raw ;;
  match infer_dtype cells with
  | ObjectColumn cells' =>
      traverse (fun cell => match parse_text cell with
                            | Some v => Done v
                            | None => OutOfModel
                            end) cells'
  | _ => OutOfModel
  end.

(** [df[name]] for a column of integers, as [df['sales']] and
    [df['profit']] are used. *)
Definition int_column (name : string) (raw : RawFrame) : outcome (list Z) :=
  cells <- raw_column name raw ;;
  match infer_dtype cells with
  | Int64Column values => Done values
  | ObjectColumn [] => Done []
  | _ => OutOfModel
  end.

(** The type a column of a CSV text is read with. *)
Definition inferred_column (name : string) (text : string)
    : outcome dtype_column :=
  raw <- read_csv text ;;
  cells <- raw_column name raw ;;
  Done (infer_dtype cells).

Fixpoint zip_rows (dates : list Date) (categories regions : list string)
    (saless profits : list Z) : DataFrame :=
  match dates, categories, regions, saless, profits with
  | d :: dates', c :: categories', g :: regions', s :: saless', p :: profits' =>
      mkRow d c g s p :: zip_rows dates' categories' regions' saless' profits'
  | _, _, _, _, _ => []
  end.

(** The frame the script works on: the date column converted by
    [pd.to_datetime], the other four columns with their inferred types. *)
Definition typed_frame (raw : RawFrame) : outcome DataFrame :=
  dates <- column parse_date "date" raw ;;
  categories <- text_column "category" raw ;;
  regions <- text_column "region" raw ;;
  saless <- int_column "sales" raw ;;
  profits <- int_column "profit" raw ;;
  Done (zip_rows dates categories regions saless profits).

Definition load (text : string) : outcome DataFrame :=
  raw <- read_csv text ;; typed_frame raw.

(** The uploaded file if there is one, else sample_data.csv; when that file
    does not exist the script reports it and stops. *)
Definition read_source (uploaded_file sample_data : option string)
    : outcome RawFrame :=
  match uploaded_file with
  | Some text => read_csv text
  | None =>
      match sample_data with
      | Some text => read_csv text
      | None => Stopped
      end
  end.

Definition load_source (uploaded_file sample_data : option string)
    : outcome DataFrame :=
  raw <- read_source uploaded_file sample_data ;; typed_frame raw.

(** ** The CSV export (line 231) *)

Definition header : list string :=
  [ "date"; "category"; "region"; "sales"; "profit" ]%string.

Definition row_cells (r : Row) : list string :=
  [ format_date (date r); category r; region r;
    format_int (sales r); format_int (profit r) ].

(** [filtered_df.to_csv(index=False)]. *)
Definition to_csv (df : DataFrame) : string :=
  string_of_list_ascii (write_rows (header :: map row_cells df)).

(** ** The widgets and the whole run *)

(** What the user has chosen in the sidebar and in the first tab; [None] is
    a widget left at its default. *)
Record Widgets := mkWidgets {
  chosen_date_range : option (list Date);
  chosen_categories : option (list string);
  chosen_regions : option (list string);
  show_moving_avg : bool;
  chosen_window : option nat
}.

(** [st.date_input] with a pair as default value: NaT is not a date the
    widget can show, so a default or bound that is NaT raises. *)
Definition date_input (value : option Date * option Date)
    (min_value max_value : option Date) (chosen : option (list Date))
    : outcome (list Date) :=
  match value, min_value, max_value with
  | (Some lo, Some hi), Some _, Some _ =>
      Done (match chosen with Some range => range | None => [lo; hi] end)
  | _, _, _ => Raised ValueError
  end.

Definition multiselect (options default : list string)
    (chosen : option (list string)) : list string :=
  match chosen with Some selection => selection | None => default end.

(** [st.slider]: the value is kept within the bounds of the widget. *)
Definition slider (min_value max_value default : nat) (chosen : option nat)
    : nat :=
  match chosen with
  | Some w =>
      if (min_value <=? w)%nat && (w <=? max_value)%nat then w else default
  | None => default
  end.

Record Page := mkPage {
  page_view : DataFrame;
  page_metrics : Metrics;
  page_moving_avg : option (list float64);
  page_csv : string
}.

(** The run, statement by statement: the file is read, the date column is
    converted (line 40), the date widget is built from its least and greatest
    date, and only then the other columns are looked up, in the order the
    script uses them. *)
Definition dashboard (uploaded_file sample_data : option string)
    (ui : Widgets) : outcome Page :=
  raw <- read_source uploaded_file sample_data ;;
  dates <- column parse_date "date" raw ;;
  date_range <- date_input (series_min dates, series_max dates)
                           (series_min dates) (series_max dates)
                           (chosen_date_range ui) ;;
  category_col <- text_column "category" raw ;;
  let categories := multiselect (unique category_col) (unique category_col)
                                (chosen_categories ui) in
  region_col <- text_column "region" raw ;;
  let regions := multiselect (unique region_col) (unique region_col)
                             (chosen_regions ui) in
  sales_col <- int_column "sales" raw ;;
  profit_col <- int_column "profit" raw ;;
  let df := zip_rows dates category_col region_col sales_col profit_col in
  let filtered := filtered_df df date_range categories regions in
  let moving :=
    if show_moving_avg ui
    then Some (moving_avg (slider 3 30 7 (chosen_window ui)) filtered)
    else None in
  Done (mkPage filtered (metrics filtered) moving (to_csv filtered)).

(** ** Notions used to state the properties *)

Definition rows_by_date (a b : Row) : Prop := date_le (date a) (date b).

Definition psum (col : list Z) (k : nat) : Z := exact_sum (firstn k col).

(** The value the pass emits at position [i]. *)
Definition emitted (window : nat) (col : list Z) (i : nat) : float64 :=
  calc_mean window (S i - (S i - window))
            (psum col (S i) - psum col (S i - window)).

(** The trailing window ending at position [i]. *)
Definition trailing (window : nat) (col : list Z) (i : nat) : list Z :=
  firstn window (skipn (S i - window) col).

(** After a cell, in any of the three states a cell can end in, a comma
    closes the cell and a line feed closes the cell and the line. *)
Definition cell_end (st : pstate) : Prop :=
  st = START_FIELD \/ st = IN_FIELD \/ st = QUOTE_IN_QUOTED_FIELD.

(** A character that opens a line which is neither empty nor blank. *)
Definition starts_line (c : ascii) : bool :=
  negb (is_special c || Ascii.eqb c space || Ascii.eqb c tab).

Definition leads (cell : string) : bool :=
  match cell with
  | String c _ => starts_line c
  | EmptyString => false
  end.

(** A line the reader takes back as it was written: its first cell opens
    the line and no cell holds a carriage return. *)
Definition well_led (line : list string) : Prop :=
  (exists cell cells, line = cell :: cells /\ leads cell = true)
  /\ Forall (fun cell => has_cr cell = false) line.

(** Every date is a day of the calendar within the timestamp range, no
    category or region is a missing-value marker or holds a carriage return,
    and sales and profit are 64-bit integers. *)
Definition text_cell (cell : string) : Prop :=
  member cell na_values = false /\ has_cr cell = false.

Definition loaded_row (r : Row) : Prop :=
  valid_date (date r) = true /\ text_cell (category r) /\ text_cell (region r)
  /\ in_int64 (sales r) = true /\ in_int64 (profit r) = true.

(** A column that is read as text again when it is written out and read
    back, however the reader splits the file: each of its cells is certainly
    text. *)
Definition stays_text (col : list string) : bool :=
  forallb certainly_text col.


(** ** Grouped tables (lines 162, 175-179, 193-196)

    [groupby] lists one group per distinct key, the keys in ascending order;
    the rows of a group are the rows of the view with that key. *)

Fixpoint insert_key (k : string) (sorted : list string) : list string :=
  match sorted with
  | [] => [k]
  | y :: sorted' =>
      if String.leb k y then k :: sorted else y :: insert_key k sorted'
  end.

Fixpoint sort_keys (keys : list string) : list string :=
  match keys with
  | [] => []
  | k :: keys' => insert_key k (sort_keys keys')
  end.

Definition group_keys (col : list string) : list string :=
  sort_keys (unique col).

Definition group (key : Row -> string) (k : string) (filtered : DataFrame)
    : DataFrame :=
  filter (fun r => String.eqb (key r) k) filtered.

(** [filtered_df.groupby('category')['sales'].sum().reset_index()]. *)
Definition category_sales (filtered : DataFrame) : list (string * Z) :=
  map (fun k => (k, series_sum (map sales (group category k filtered))))
      (group_keys (map category filtered)).

(** [groupby('category').agg({'sales': 'sum', 'profit': 'sum'})] with the
    [profit_rate] column added by line 179. *)
Record CategoryProfit := mkCategoryProfit {
  cp_category : string;
  cp_sales : Z;
  cp_profit : Z;
  cp_profit_rate : float64
}.

Definition category_profit (filtered : DataFrame) : list CategoryProfit :=
  map (fun k =>
         let g := group category k filtered in
         let s := series_sum (map sales g) in
         let p := series_sum (map profit g) in
         mkCategoryProfit k s p (mul_int (true_divide p s) 100))
      (group_keys (map category filtered)).

(** Rounding to the nearest integer, ties to the even one. *)
Definition round_half_even (q : Q) : Z :=
  let a := Qnum q in
  let b := Zpos (Qden q) in
  let f := a / b in
  match 2 * (a mod b) ?= b with
  | Lt => f
  | Gt => f + 1
  | Eq => if Z.even f then f else f + 1
  end.

(** [round(2)] on a float: the nearest multiple of 1/100 of the exact value.
    (The script rounds the float nearest to that value, which can end one
    hundredth lower or higher when the exact value lies halfway.) *)
Definition round2 (x : float64) : float64 :=
  match x with
  | Finite q => Finite (Qred (inject_Z (round_half_even (q * 100)) / 100))
  | _ => x
  end.

(** [groupby('region').agg({'sales': ['sum', 'mean'], 'profit': ['sum',
    'mean']}).round(2)]; rounding leaves the integer sums as they are. *)
Record RegionRow := mkRegionRow {
  rr_region : string;
  rr_sales_sum : Z;
  rr_sales_mean : float64;
  rr_profit_sum : Z;
  rr_profit_mean : float64
}.

Definition region_data (filtered : DataFrame) : list RegionRow :=
  map (fun k =>
         let g := group region k filtered in
         mkRegionRow k
           (series_sum (map sales g)) (round2 (series_mean (map sales g)))
           (series_sum (map profit g)) (round2 (series_mean (map profit g))))
      (group_keys (map region filtered)).

(** ** The name of the downloaded file (line 235) *)

Record DateTime := mkDateTime {
  dt_date : Date;
  hour : Z;
  minute : Z;
  second : Z
}.

Definition pad2 (n : Z) : list ascii := [digit (n / 10); digit (n mod 10)].

Definition pad4 (n : Z) : list ascii :=
  [digit (n / 1000); digit (n / 100 mod 10); digit (n / 10 mod 10);
   digit (n mod 10)].

(** [now.strftime("%Y%m%d_%H%M%S")], for a year of four digits. *)
Definition strftime (now : DateTime) : list ascii :=
  pad4 (year (dt_date now)) ++ pad2 (month (dt_date now))
  ++ pad2 (day (dt_date now)) ++ ["_"%char]
  ++ pad2 (hour now) ++ pad2 (minute now) ++ pad2 (second now).

Definition file_name (now : DateTime) : string :=
  string_of_list_ascii
    (list_ascii_of_string "filtered_data_" ++ strftime now
     ++ list_ascii_of_string ".csv").

(** A clock reading [datetime.now()] can return, with a four-digit year. *)
Definition clock_reading (now : DateTime) : Prop :=
  1000 <= year (dt_date now) <= 9999
  /\ 1 <= month (dt_date now) <= 12
  /\ 1 <= day (dt_date now) <= 31
  /\ 0 <= hour now <= 23 /\ 0 <= minute now <= 59 /\ 0 <= second now <= 59.

(** ** Notions used to state the further properties *)

Definition keys_ascending (a b : string) : Prop := String.leb a b = true.

Definition default_widgets : Widgets := mkWidgets None None None false None.

(** ** Layouts of a CSV text

    The same table can reach the loader written in several ways: lines ended
    by a line feed or by a carriage return and a line feed, empty lines between
    the lines, and a last line with or without its line break. *)

Inductive line_end := EndLF | EndCRLF.

Definition line_break (e : line_end) : list ascii :=
  match e with
  | EndLF => [LF]
  | EndCRLF => [CR; LF]
  end.

Fixpoint join_cells (cells : list string) : list ascii :=
  match cells with
  | [] => []
  | [c] => write_cell c
  | c :: cells' => write_cell c ++ comma :: join_cells cells'
  end.

(** One line of a layout: the empty lines standing before it, its cells, and
    how it ends. *)
Record LaidLine := mkLaidLine {
  blank_lines : list line_end;
  cells_of : list string;
  ending : line_end
}.

Definition write_laid_line (l : LaidLine) : list ascii :=
  List.concat (map line_break (blank_lines l))
  ++ join_cells (cells_of l) ++ line_break (ending l).

(** A text: laid lines, then possibly a last line without line break. *)
Definition write_layout (laid : list LaidLine) (last : option (list string))
    : list ascii :=
  List.concat (map write_laid_line laid)
  ++ match last with
     | Some cells => join_cells cells
     | None => []
     end.

Definition table_of (laid : list LaidLine) (last : option (list string))
    : list (list string) :=
  map cells_of laid
  ++ match last with
     | Some cells => [cells]
     | None => []
     end.
(** * Properties of the filtering step *)

(** ** Lemmas on dates *)

Lemma date_leb_le a b : date_leb a b = true <-> date_le a b.
Proof.
  unfold date_leb, date_compare, date_le.
  destruct (Z.compare_spec (year a) (year b));
    destruct (Z.compare_spec (month a) (month b));
    destruct (Z.compare_spec (day a) (day b));
    split; intros; try discriminate; try lia; auto.
Qed.

Lemma date_leb_refl a : date_leb a a = true.
Proof. apply date_leb_le. unfold date_le. lia. Qed.

Lemma date_le_trans a b c : date_le a b -> date_le b c -> date_le a c.
Proof. unfold date_le. lia. Qed.

Lemma date_le_total a b : date_le a b \/ date_le b a.
Proof. unfold date_le. lia. Qed.

Lemma date_leb_false a b : date_leb a b = false -> date_le b a.
Proof.
  intros H. destruct (date_le_total a b) as [H1 | H1]; auto.
  apply date_leb_le in H1. congruence.
Qed.

(** ** Lemmas on masks *)

Lemma series_and_map {A} (f g : A -> bool) (l : list A) :
  series_and (map f l) (map g l) = map (fun x => f x && g x) l.
Proof. induction l; simpl; congruence. Qed.

Lemma boolean_index_map (f : Row -> bool) (df : DataFrame) :
  boolean_index df (map f df) = filter f df.
Proof. induction df as [| r df IH]; simpl; [ | rewrite IH ]; reflexivity. Qed.

Lemma member_In x values : member x values = true <-> In x values.
Proof.
  unfold member. rewrite existsb_exists. split.
  - intros [y [Hy He]]. apply String.eqb_eq in He. now subst.
  - intros H. exists x. split; auto. apply String.eqb_refl.
Qed.

Lemma mask_map df start stop categories regions :
  mask df start stop categories regions
  = map (passes start stop categories regions) df.
Proof.
  unfold mask, series_ge, series_le, isin.
  rewrite !map_map. rewrite !series_and_map. reflexivity.
Qed.

Lemma filtered_df_two_bounds df start stop categories regions :
  filtered_df df [start; stop] categories regions
  = filter (passes start stop categories regions) df.
Proof. unfold filtered_df. rewrite mask_map. apply boolean_index_map. Qed.

Lemma filtered_df_fallback df date_range categories regions :
  List.length date_range <> 2%nat ->
  filtered_df df date_range categories regions
  = filter (fun r => member (category r) categories
                     && member (region r) regions) df.
Proof.
  intros H. unfold filtered_df, isin.
  rewrite !map_map, series_and_map.
  destruct date_range as [| a [| b [| c l]]]; simpl in H; try lia;
    apply boolean_index_map.
Qed.

Lemma passes_spec start stop categories regions r :
  passes start stop categories regions r = true <->
  date_le start (date r) /\ date_le (date r) stop /\
  In (category r) categories /\ In (region r) regions.
Proof.
  unfold passes, date_geb.
  rewrite !andb_true_iff, !date_leb_le, !member_In. tauto.
Qed.

Lemma filter_subseq {A} (f : A -> bool) (l : list A) : subseq (filter f l) l.
Proof.
  induction l as [| x l IH]; simpl.
  - constructor.
  - destruct (f x); constructor; exact IH.
Qed.

Lemma count_occ_filter (f : Row -> bool) (l : DataFrame) (r : Row) :
  f r = true ->
  count_occ Row_eq_dec (filter f l) r = count_occ Row_eq_dec l r.
Proof.
  intros Hr. induction l as [| x l IH]; simpl; auto.
  destruct (Row_eq_dec x r) as [-> | Hn].
  - rewrite Hr. simpl. destruct (Row_eq_dec r r); congruence.
  - destruct (f x); simpl; auto.
    destruct (Row_eq_dec x r); congruence.
Qed.

(** C1: with a two-bound date range the filtered view holds exactly the rows
    of the data frame that satisfy the four conjuncts (date >= start,
    date <= end, category selected, region selected): membership is equivalent
    to being a row of the frame that passes, the view is a subsequence of the
    frame, and every passing row keeps its number of occurrences. *)
Theorem filtered_df_exact_conjunction :
  forall (df : DataFrame) (start stop : Date) (categories regions : list string),
    let view := filtered_df df [start; stop] categories regions in
    (forall r, In r view <->
               In r df /\ date_le start (date r) /\ date_le (date r) stop /\
               In (category r) categories /\ In (region r) regions)
    /\ subseq view df
    /\ (forall r, date_le start (date r) -> date_le (date r) stop ->
                  In (category r) categories -> In (region r) regions ->
                  count_occ Row_eq_dec view r = count_occ Row_eq_dec df r).
Proof.
  intros df start stop categories regions view. subst view.
  rewrite filtered_df_two_bounds. split; [ | split ].
  - intros r. rewrite filter_In, passes_spec. tauto.
  - apply filter_subseq.
  - intros r H1 H2 H3 H4. apply count_occ_filter. apply passes_spec. tauto.
Qed.

Lemma filter_none {A} (f : A -> bool) (l : list A) :
  (forall x, In x l -> f x = false) -> filter f l = [].
Proof.
  induction l as [| x l IH]; simpl; intros H; auto.
  rewrite (H x) by auto. apply IH. intros y Hy. apply H. auto.
Qed.

Lemma filter_all {A} (f : A -> bool) (l : list A) :
  (forall x, In x l -> f x = true) -> filter f l = l.
Proof.
  induction l as [| x l IH]; simpl; intros H; auto.
  rewrite (H x) by auto. f_equal. apply IH. intros y Hy. apply H. auto.
Qed.

Lemma two_bounds_or_not (date_range : list Date) :
  (exists start stop, date_range = [start; stop])
  \/ List.length date_range <> 2%nat.
Proof.
  destruct date_range as [| a [| b [| c l]]]; simpl;
    try (right; lia). left. eauto.
Qed.

(** C4: an empty category selection gives an empty filtered view, whatever
    the date range (two bounds or not) and the region selection are. *)
Theorem filtered_df_no_category :
  forall (df : DataFrame) (date_range : list Date) (regions : list string),
    filtered_df df date_range [] regions = [].
Proof.
  intros df date_range regions.
  destruct (two_bounds_or_not date_range) as [(start & stop & ->) | Hlen].
  - rewrite filtered_df_two_bounds. apply filter_none. intros r _.
    unfold passes. simpl. now rewrite andb_false_r.
  - rewrite filtered_df_fallback by exact Hlen. apply filter_none.
    intros r _. reflexivity.
Qed.

(** C5: with fewer than two bounds in the date range the filtering step does
    not fail; the view holds exactly the rows whose category and region are
    selected, with no condition on the date. *)
Theorem filtered_df_malformed_range :
  forall (df : DataFrame) (date_range : list Date)
         (categories regions : list string),
    (List.length date_range < 2)%nat ->
    let view := filtered_df df date_range categories regions in
    (forall r, In r view <->
               In r df /\ In (category r) categories /\ In (region r) regions)
    /\ subseq view df
    /\ (forall r, In (category r) categories -> In (region r) regions ->
                  count_occ Row_eq_dec view r = count_occ Row_eq_dec df r).
Proof.
  intros df date_range categories regions Hlen view. subst view.
  rewrite filtered_df_fallback by lia. split; [ | split ].
  - intros r. rewrite filter_In, andb_true_iff, !member_In. tauto.
  - apply filter_subseq.
  - intros r H1 H2. apply count_occ_filter.
    rewrite andb_true_iff, !member_In. tauto.
Qed.

Lemma filtered_df_malformed_range_witness :
  let view := filtered_df scenario [jan 2] ["A"%string] ["East"%string] in
  (forall r, In r view <->
             In r scenario /\ In (category r) ["A"%string]
             /\ In (region r) ["East"%string])
  /\ subseq view scenario
  /\ (forall r, In (category r) ["A"%string] -> In (region r) ["East"%string] ->
                count_occ Row_eq_dec view r = count_occ Row_eq_dec scenario r).
Proof.
  apply (filtered_df_malformed_range scenario [jan 2]). simpl. lia.
Defined.

(** ** The default filter state *)

Lemma unique_In x col : In x (unique col) <-> In x col.
Proof.
  induction col as [| y col IH]; simpl; [ tauto | ].
  rewrite filter_In, IH, negb_true_iff, String.eqb_neq.
  destruct (string_dec y x) as [-> | Hn]; [ tauto | ].
  intuition congruence.
Qed.

Lemma fold_min_le col : forall d,
  date_le (fold_left date_min2 col d) d /\
  forall x, In x col -> date_le (fold_left date_min2 col d) x.
Proof.
  induction col as [| y col IH]; simpl; intros d.
  - split; [ apply date_leb_le, date_leb_refl | tauto ].
  - destruct (IH (date_min2 d y)) as [H1 H2].
    assert (Hd : date_le (date_min2 d y) d /\ date_le (date_min2 d y) y).
    { unfold date_min2. destruct (date_leb d y) eqn:E.
      - split; [ apply date_leb_le, date_leb_refl | now apply date_leb_le ].
      - split; [ now apply date_leb_false | apply date_leb_le, date_leb_refl ]. }
    destruct Hd as [Hd Hy]. split.
    + eapply date_le_trans; eauto.
    + intros x [<- | Hx]; [ eapply date_le_trans; eauto | auto ].
Qed.

Lemma fold_max_ge col : forall d,
  date_le d (fold_left date_max2 col d) /\
  forall x, In x col -> date_le x (fold_left date_max2 col d).
Proof.
  induction col as [| y col IH]; simpl; intros d.
  - split; [ apply date_leb_le, date_leb_refl | tauto ].
  - destruct (IH (date_max2 d y)) as [H1 H2].
    assert (Hd : date_le d (date_max2 d y) /\ date_le y (date_max2 d y)).
    { unfold date_max2. destruct (date_leb d y) eqn:E.
      - split; [ now apply date_leb_le | apply date_leb_le, date_leb_refl ].
      - split; [ apply date_leb_le, date_leb_refl | now apply date_leb_false ]. }
    destruct Hd as [Hd Hy]. split.
    + eapply date_le_trans; eauto.
    + intros x [<- | Hx]; [ eapply date_le_trans; eauto | auto ].
Qed.

Lemma series_min_le col lo :
  series_min col = Some lo -> forall x, In x col -> date_le lo x.
Proof.
  destruct col as [| d col]; simpl; [ discriminate | ].
  intros [= <-] x. destruct (fold_min_le col d) as [H1 H2].
  intros [<- | Hx]; auto.
Qed.

Lemma series_max_ge col hi :
  series_max col = Some hi -> forall x, In x col -> date_le x hi.
Proof.
  destruct col as [| d col]; simpl; [ discriminate | ].
  intros [= <-] x. destruct (fold_max_ge col d) as [H1 H2].
  intros [<- | Hx]; auto.
Qed.

Lemma filter_at_bounds df lo hi :
  series_min (map date df) = Some lo ->
  series_max (map date df) = Some hi ->
  filtered_df df [lo; hi] (unique (map category df)) (unique (map region df))
  = df.
Proof.
  intros Hlo Hhi. rewrite filtered_df_two_bounds.
  apply filter_all. intros r Hr.
  apply passes_spec. split; [ | split; [ | split ] ].
  - apply (series_min_le _ _ Hlo). now apply in_map.
  - apply (series_max_ge _ _ Hhi). now apply in_map.
  - apply unique_In. now apply in_map.
  - apply unique_In. now apply in_map.
Qed.

(** C10: the filter at its default state is the identity.  When the date
    range is (min, max) of the date column and the selections are all the
    distinct categories and all the distinct regions of the frame, the
    filtered view is the frame itself.  (On an empty frame the column has no
    min or max; the view is empty for any bounds.) *)
Theorem filtered_df_default_identity :
  forall (df : DataFrame) (lo hi : Date),
    (df <> [] -> series_min (map date df) = Some lo /\
                 series_max (map date df) = Some hi) ->
    filtered_df df [lo; hi] (unique (map category df)) (unique (map region df))
    = df.
Proof.
  intros df lo hi H. destruct df as [| r df]; [ reflexivity | ].
  destruct H as [Hlo Hhi]; [ discriminate | ].
  now apply filter_at_bounds.
Qed.

Lemma filtered_df_default_identity_witness :
  filtered_df scenario [jan 1; jan 3]
    (unique (map category scenario)) (unique (map region scenario))
  = scenario.
Proof.
  apply (filtered_df_default_identity scenario (jan 1) (jan 3)).
  intros _. split; reflexivity.
Defined.

(** * Properties of the metrics *)

Example scenario_metrics :
  let view := filtered_df scenario [jan 1; jan 2] ["A"%string] ["East"%string] in
  List.length view = 2%nat /\ total_sales view = 300 /\ total_profit view = 30
  /\ profit_rate view = Finite (10 # 1).
Proof. vm_compute. repeat split. Qed.

(** ** Profit rate over zero sales *)

(** C2, as stated, fails: for the single row with sales 0 and profit 5 the
    profit rate is the infinity of the unguarded division, and the metric
    record carries that float. *)
Lemma profit_rate_zero_sales_infinite :
  total_sales [mkRow (jan 1) "A" "East" 0 5] = 0
  /\ profit_rate [mkRow (jan 1) "A" "East" 0 5] = PosInf
  /\ m_profit_rate (metrics [mkRow (jan 1) "A" "East" 0 5]) = PosInf.
Proof. repeat split. Qed.

(** C2, amended: when the total sales of the view is zero the profit rate is
    the result of the float division by zero: positive infinity when the total
    profit is positive, negative infinity when it is negative, NaN when it is
    zero. *)
Theorem profit_rate_zero_sales :
  forall filtered : DataFrame,
    total_sales filtered = 0 ->
    profit_rate filtered
    = if total_profit filtered =? 0 then NaN
      else if 0 <? total_profit filtered then PosInf else NegInf.
Proof.
  intros filtered H. unfold profit_rate. rewrite H. unfold true_divide. simpl.
  destruct (total_profit filtered =? 0); [ reflexivity | ].
  destruct (0 <? total_profit filtered); reflexivity.
Qed.

Lemma profit_rate_zero_sales_witness :
  profit_rate [mkRow (jan 1) "A" "East" 0 (-5)] = NegInf.
Proof.
  apply (profit_rate_zero_sales [mkRow (jan 1) "A" "East" 0 (-5)]).
  reflexivity.
Defined.

(** ** Mean and standard deviation of an empty view *)

(** C7, as stated, fails: on the empty view the four statistics are the bare
    NaN of the float type; the metric record has no field that marks them as
    undefined. *)
Lemma empty_view_statistics_are_nan :
  metrics [] = mkMetrics 0 0 NaN StdNaN 0 NaN NaN.
Proof. reflexivity. Qed.

(** C7, amended: for a view with zero rows the mean and the standard
    deviation of sales and of profit are NaN (not 0). *)
Theorem empty_view_mean_std :
  forall filtered : DataFrame,
    List.length filtered = 0%nat ->
    mean_sales filtered = NaN /\ std_sales filtered = StdNaN /\
    mean_profit filtered = NaN /\ std_profit filtered = StdNaN.
Proof.
  intros filtered H. apply length_zero_iff_nil in H. subst filtered.
  repeat split.
Qed.

Lemma empty_view_mean_std_witness :
  mean_sales (filtered_df scenario [jan 1; jan 3] [] ["East"%string]) = NaN
  /\ std_sales (filtered_df scenario [jan 1; jan 3] [] ["East"%string]) = StdNaN
  /\ mean_profit (filtered_df scenario [jan 1; jan 3] [] ["East"%string]) = NaN
  /\ std_profit (filtered_df scenario [jan 1; jan 3] [] ["East"%string]) = StdNaN.
Proof.
  apply (empty_view_mean_std
           (filtered_df scenario [jan 1; jan 3] [] ["East"%string])).
  reflexivity.
Defined.

(** * Properties of the moving average *)

(** ** Sorting by date *)

Lemma insert_by_date_perm r l : Permutation (insert_by_date r l) (r :: l).
Proof.
  induction l as [| y l IH]; simpl; auto.
  destruct (date_leb (date r) (date y)); auto.
  rewrite IH. apply perm_swap.
Qed.

Lemma sort_values_perm df : Permutation (sort_values df) df.
Proof.
  induction df as [| r df IH]; simpl; auto.
  rewrite insert_by_date_perm. now constructor.
Qed.

Lemma insert_by_date_hd r a l :
  rows_by_date a r -> HdRel rows_by_date a l ->
  HdRel rows_by_date a (insert_by_date r l).
Proof.
  intros Har Hal. destruct l as [| y l]; simpl.
  - now constructor.
  - destruct (date_leb (date r) (date y)); constructor; auto.
    now inversion Hal.
Qed.

Lemma insert_by_date_sorted r l :
  Sorted rows_by_date l -> Sorted rows_by_date (insert_by_date r l).
Proof.
  induction 1 as [| y l Hs IH Hh]; simpl.
  - repeat constructor.
  - destruct (date_leb (date r) (date y)) eqn:E.
    + constructor; [ now constructor | ].
      constructor. now apply date_leb_le.
    + constructor; auto. apply insert_by_date_hd; auto.
      now apply date_leb_false.
Qed.

Lemma sort_values_sorted df : Sorted rows_by_date (sort_values df).
Proof.
  induction df as [| r df IH]; simpl; [ constructor | ].
  now apply insert_by_date_sorted.
Qed.

Lemma sort_values_length df : List.length (sort_values df) = List.length df.
Proof. apply Permutation_length, sort_values_perm. Qed.

(** ** Prefix sums *)

Lemma fold_add_shift (l : list Z) (a : Z) :
  fold_left Z.add l a = a + fold_left Z.add l 0.
Proof.
  revert a. induction l as [| x l IH]; intros a; simpl; [ lia | ].
  rewrite (IH (a + x)), (IH x). lia.
Qed.

Lemma exact_sum_cons x l : exact_sum (x :: l) = x + exact_sum l.
Proof. unfold exact_sum. simpl. apply fold_add_shift. Qed.

Lemma exact_sum_app l1 l2 :
  exact_sum (l1 ++ l2) = exact_sum l1 + exact_sum l2.
Proof.
  induction l1 as [| x l1 IH]; simpl; [ reflexivity | ].
  rewrite !exact_sum_cons, IH. lia.
Qed.

(** ** 64-bit sums *)

Lemma wrap64_in_range z : in_int64 z = true -> wrap64 z = z.
Proof.
  unfold in_int64, int64_min, int64_max, wrap64.
  rewrite andb_true_iff, !Z.leb_le. intros H.
  rewrite Z.mod_small; lia.
Qed.

Lemma wrap64_add_l a b : wrap64 (wrap64 a + b) = wrap64 (a + b).
Proof.
  unfold wrap64.
  replace ((a + 2 ^ 63) mod 2 ^ 64 - 2 ^ 63 + b + 2 ^ 63)
    with ((a + 2 ^ 63) mod 2 ^ 64 + b) by lia.
  rewrite Zplus_mod_idemp_l. f_equal. f_equal. lia.
Qed.

Lemma wrap64_add_r a b : wrap64 (a + wrap64 b) = wrap64 (a + b).
Proof. now rewrite Z.add_comm, wrap64_add_l, Z.add_comm. Qed.

Lemma fold_wrap (l : list Z) : forall a,
  fold_left (fun acc x => wrap64 (acc + x)) l (wrap64 a)
  = wrap64 (fold_left Z.add l a).
Proof.
  induction l as [| x l IH]; intros a; simpl; [ reflexivity | ].
  now rewrite wrap64_add_l, IH.
Qed.

(** The 64-bit sum is the exact sum wrapped around once. *)
Lemma series_sum_wrap col : series_sum col = wrap64 (exact_sum col).
Proof. unfold series_sum, exact_sum. now rewrite <- fold_wrap. Qed.

Lemma series_sum_in_range col :
  in_int64 (exact_sum col) = true -> series_sum col = exact_sum col.
Proof. intros H. rewrite series_sum_wrap. now apply wrap64_in_range. Qed.

Lemma series_sum_nil : series_sum [] = 0.
Proof. reflexivity. Qed.

Lemma series_sum_cons x l : series_sum (x :: l) = wrap64 (x + series_sum l).
Proof.
  rewrite !series_sum_wrap, exact_sum_cons. now rewrite wrap64_add_r.
Qed.

Lemma firstn_plus {A} (a n : nat) (l : list A) :
  firstn (a + n) l = firstn a l ++ firstn n (skipn a l).
Proof.
  revert l. induction a as [| a IH]; intros l; simpl; [ reflexivity | ].
  destruct l as [| x l]; simpl.
  - now rewrite firstn_nil.
  - now rewrite IH.
Qed.

Lemma sum_window col a n :
  exact_sum (firstn n (skipn a col)) = psum col (a + n) - psum col a.
Proof. unfold psum. rewrite firstn_plus, exact_sum_app. lia. Qed.

Lemma skipn_head {A} (l : list A) : forall j x t,
  skipn j l = x :: t -> nth_error l j = Some x /\ skipn (S j) l = t.
Proof.
  induction l as [| y l IH]; intros j x t H.
  - destruct j; discriminate.
  - destruct j as [| j]; simpl in *.
    + now inversion H.
    + now apply IH.
Qed.

Lemma nth_error_skipn {A} (l : list A) : forall k x,
  nth_error l k = Some x -> skipn k l = x :: skipn (S k) l.
Proof.
  induction l as [| y l IH]; intros k x H.
  - destruct k; discriminate.
  - destruct k as [| k]; simpl in *.
    + now inversion H.
    + now apply IH.
Qed.

Lemma psum_succ col k x :
  nth_error col k = Some x -> psum col (S k) = psum col k + x.
Proof.
  intros H. unfold psum.
  replace (S k) with (k + 1)%nat by lia.
  rewrite firstn_plus, exact_sum_app, (nth_error_skipn _ _ _ H).
  simpl. rewrite exact_sum_cons. unfold exact_sum. simpl. lia.
Qed.

(** ** The sliding pass computes the window sums *)

Section SlidingPass.

Variable window : nat.
Variable col : list Z.
Hypothesis window_positive : (1 <= window)%nat.

Lemma roll_mean_emits : forall lead j,
  skipn j col = lead ->
  roll_mean window (skipn (j - window) col) lead j
            (psum col j - psum col (j - window)) (j - (j - window))
  = map (emitted window col) (seq j (List.length lead)).
Proof.
  intros lead. induction lead as [| x lead IH]; intros j Hj; simpl.
  - reflexivity.
  - destruct (skipn_head _ _ _ _ Hj) as [Hx Hrest].
    assert (Hlen : (j < List.length col)%nat).
    { apply nth_error_Some. congruence. }
    pose proof (psum_succ _ _ _ Hx) as Hp.
    destruct (window <=? j)%nat eqn:E.
    + apply Nat.leb_le in E.
      assert (Hold : exists old, nth_error col (j - window) = Some old).
      { destruct (nth_error col (j - window)) eqn:En; eauto.
        apply nth_error_None in En. lia. }
      destruct Hold as [old Hold].
      rewrite (nth_error_skipn _ _ _ Hold).
      pose proof (psum_succ _ _ _ Hold) as Hq.
      replace (S (j - window)) with (S j - window)%nat in * by lia.
      replace (S (Nat.pred (j - (j - window))))
        with (S j - (S j - window))%nat by lia.
      replace (psum col j - psum col (j - window) - old + x)
        with (psum col (S j) - psum col (S j - window)) by lia.
      unfold emitted at 1. f_equal. now apply IH.
    + apply Nat.leb_gt in E.
      replace (j - window)%nat with (S j - window)%nat in * by lia.
      replace (S (j - (S j - window))) with (S j - (S j - window))%nat by lia.
      replace (psum col j - psum col (S j - window) + x)
        with (psum col (S j) - psum col (S j - window)) by lia.
      unfold emitted at 1. f_equal. now apply IH.
Qed.

Lemma emitted_short i : (S i < window)%nat -> emitted window col i = NaN.
Proof.
  intros H. unfold emitted, calc_mean.
  replace (window <=? S i - (S i - window))%nat with false; auto.
  symmetry. apply Nat.leb_gt. lia.
Qed.

Lemma emitted_full i :
  (window <= S i)%nat -> (i < List.length col)%nat ->
  emitted window col i = series_mean (trailing window col i).
Proof.
  intros Hi Hlen. unfold emitted, calc_mean, series_mean, trailing.
  assert (Hl : List.length (firstn window (skipn (S i - window) col)) = window).
  { rewrite length_firstn, length_skipn. lia. }
  rewrite Hl, sum_window.
  replace (S i - (S i - window))%nat with window by lia.
  replace (S i - window + window)%nat with (S i) by lia.
  rewrite Nat.leb_refl.
  destruct window as [| w]; [ lia | ]. reflexivity.
Qed.

End SlidingPass.

Lemma rolling_mean_positions (window : nat) (col : list Z) :
  rolling_mean window col
  = map (fun i => if (S i <? window)%nat then NaN
                  else series_mean (trailing window col i))
        (seq 0 (List.length col)).
Proof.
  unfold rolling_mean. destruct window as [| w].
  - unfold trailing. simpl. rewrite <- (map_id col) at 1.
    rewrite !map_map. clear. generalize 0%nat.
    induction col as [| x col IH]; intros n; simpl; [ reflexivity | ].
    f_equal. apply IH.
  - pose proof (roll_mean_emits (S w) col ltac:(lia) col 0%nat eq_refl) as H.
    simpl in H. simpl. rewrite H. apply map_ext_in.
    intros i Hi. apply in_seq in Hi.
    destruct (S i <? S w)%nat eqn:E.
    + apply Nat.ltb_lt in E. apply emitted_short; lia.
    + apply Nat.ltb_ge in E. apply emitted_full; lia.
Qed.

Lemma rolling_mean_length window col :
  List.length (rolling_mean window col) = List.length col.
Proof. rewrite rolling_mean_positions. now rewrite length_map, length_seq. Qed.

Lemma rolling_mean_nth window col i :
  (i < List.length col)%nat ->
  nth_error (rolling_mean window col) i
  = Some (if (S i <? window)%nat then NaN
          else series_mean (trailing window col i)).
Proof.
  intros H. rewrite rolling_mean_positions.
  rewrite nth_error_map, nth_error_seq.
  apply Nat.ltb_lt in H. rewrite H. reflexivity.
Qed.

Lemma trailing_length window col i :
  (window <= S i)%nat -> (i < List.length col)%nat ->
  List.length (trailing window col i) = window.
Proof.
  intros H1 H2. unfold trailing. rewrite length_firstn, length_skipn. lia.
Qed.

(** C6: the moving average is computed over the rows sorted by ascending
    date (a sorted permutation of the filtered view).  With N rows and window
    W: if N < W every position is NaN; if N >= W the positions before W-1 are
    NaN and every position from W-1 on is the mean of the W sales values
    ending there (a full window, never a truncated one). *)
Theorem moving_avg_trailing_mean :
  forall (filtered : DataFrame) (window : nat),
    let sorted := sort_values filtered in
    let n := List.length filtered in
    let ma := moving_avg window filtered in
    Sorted rows_by_date sorted
    /\ Permutation sorted filtered
    /\ ((n < window)%nat ->
        forall i, (i < n)%nat -> nth_error ma i = Some NaN)
    /\ ((window <= n)%nat ->
        forall i, (i < n)%nat ->
          ((S i < window)%nat -> nth_error ma i = Some NaN)
          /\ ((window <= S i)%nat ->
              List.length (trailing window (map sales sorted) i) = window
              /\ nth_error ma i
                 = Some (series_mean (trailing window (map sales sorted) i)))).
Proof.
  intros filtered window sorted n ma. subst sorted n ma. unfold moving_avg.
  assert (Hlen : List.length (map sales (sort_values filtered))
                 = List.length filtered)
    by (rewrite length_map; apply sort_values_length).
  split; [ apply sort_values_sorted | ].
  split; [ apply sort_values_perm | ].
  split.
  - intros Hn i Hi. rewrite rolling_mean_nth by lia.
    replace (S i <? window)%nat with true; auto.
    symmetry. apply Nat.ltb_lt. lia.
  - intros Hn i Hi. split.
    + intros Hs. rewrite rolling_mean_nth by lia.
      apply Nat.ltb_lt in Hs. now rewrite Hs.
    + intros Hs. split.
      * apply trailing_length; lia.
      * rewrite rolling_mean_nth by lia.
        replace (S i <? window)%nat with false; auto.
        symmetry. apply Nat.ltb_ge. lia.
Qed.

(** C9: the moving-average column has one value per row of the date-sorted
    view: the same length, a value at every position, and NaN in place at the
    positions where fewer than W rows have been seen. *)
Theorem moving_avg_one_value_per_row :
  forall (filtered : DataFrame) (window : nat),
    let ma := moving_avg window filtered in
    List.length ma = List.length (sort_values filtered)
    /\ List.length ma = List.length filtered
    /\ (forall i, (i < List.length filtered)%nat ->
                  exists v, nth_error ma i = Some v)
    /\ (forall i, (i < List.length filtered)%nat -> (S i < window)%nat ->
                  nth_error ma i = Some NaN).
Proof.
  intros filtered window ma. subst ma. unfold moving_avg.
  assert (Hlen : List.length (map sales (sort_values filtered))
                 = List.length filtered)
    by (rewrite length_map; apply sort_values_length).
  rewrite rolling_mean_length, length_map.
  split; [ reflexivity | ].
  split; [ apply sort_values_length | ].
  split.
  - intros i Hi. rewrite rolling_mean_nth by lia. eauto.
  - intros i Hi Hs. rewrite rolling_mean_nth by lia.
    apply Nat.ltb_lt in Hs. now rewrite Hs.
Qed.

Example moving_avg_scenario :
  moving_avg 2 (rev scenario) = [NaN; Finite (150 # 1); Finite (125 # 1)]
  /\ moving_avg 4 scenario = [NaN; NaN; NaN].
Proof. split; reflexivity. Qed.

(** * Properties of the CSV export and of the loader *)

(** ** One step of the tokenizer *)

Lemma special_false c :
  is_special c = false ->
  Ascii.eqb c comma = false /\ Ascii.eqb c dquote = false /\
  Ascii.eqb c LF = false /\ Ascii.eqb c CR = false.
Proof.
  unfold is_special. rewrite !orb_false_iff. tauto.
Qed.

Lemma step_in_field c f row rows rest :
  is_special c = false ->
  tokenize IN_FIELD f row rows (c :: rest)
  = tokenize IN_FIELD (c :: f) row rows rest.
Proof.
  intros H. apply special_false in H. destruct H as (H1 & H2 & H3 & H4).
  simpl. now rewrite H1, H3, H4.
Qed.

Lemma step_start_field c f row rows rest :
  is_special c = false ->
  tokenize START_FIELD f row rows (c :: rest)
  = tokenize IN_FIELD (c :: f) row rows rest.
Proof.
  intros H. apply special_false in H. destruct H as (H1 & H2 & H3 & H4).
  simpl. now rewrite H1, H2, H3, H4.
Qed.

Lemma step_in_quoted c f row rows rest :
  Ascii.eqb c dquote = false ->
  tokenize IN_QUOTED_FIELD f row rows (c :: rest)
  = tokenize IN_QUOTED_FIELD (c :: f) row rows rest.
Proof. intros H. simpl. now rewrite H. Qed.

Lemma step_doubled_quote f row rows rest :
  tokenize IN_QUOTED_FIELD f row rows (dquote :: dquote :: rest)
  = tokenize IN_QUOTED_FIELD (dquote :: f) row rows rest.
Proof. reflexivity. Qed.

Lemma step_comma st f row rows rest :
  cell_end st ->
  tokenize st f row rows (comma :: rest)
  = tokenize START_FIELD [] (end_field f row) rows rest.
Proof. intros [-> | [-> | ->]]; reflexivity. Qed.

Lemma step_line_feed st f row rows rest :
  cell_end st ->
  tokenize st f row rows (LF :: rest)
  = tokenize START_RECORD [] [] (end_line (end_field f row) rows) rest.
Proof. intros [-> | [-> | ->]]; reflexivity. Qed.

(** ** Reading back one written cell *)

Lemma read_plain cs : forall f row rows rest,
  existsb is_special cs = false ->
  tokenize IN_FIELD f row rows (cs ++ rest)
  = tokenize IN_FIELD (rev cs ++ f) row rows rest.
Proof.
  induction cs as [| c cs IH]; intros f row rows rest H; simpl in H.
  - reflexivity.
  - apply orb_false_iff in H. destruct H as [Hc Hcs].
    rewrite <- app_comm_cons, step_in_field by exact Hc.
    rewrite IH by exact Hcs. simpl. now rewrite <- app_assoc.
Qed.

Lemma read_quoted cs : forall f row rows rest,
  tokenize IN_QUOTED_FIELD f row rows (double_quotes cs ++ dquote :: rest)
  = tokenize QUOTE_IN_QUOTED_FIELD (rev cs ++ f) row rows rest.
Proof.
  induction cs as [| c cs IH]; intros f row rows rest.
  - reflexivity.
  - simpl double_quotes. destruct (Ascii.eqb c dquote) eqn:E.
    + apply Ascii.eqb_eq in E. subst c.
      rewrite <- !app_comm_cons, step_doubled_quote, IH.
      simpl. now rewrite <- app_assoc.
    + rewrite <- app_comm_cons, step_in_quoted by exact E.
      rewrite IH. simpl. now rewrite <- app_assoc.
Qed.

Lemma plain_chars cs :
  existsb needs_quotes cs = false ->
  existsb (fun c => Ascii.eqb c CR) cs = false ->
  existsb is_special cs = false.
Proof.
  induction cs as [| c cs IH]; simpl; [ reflexivity | ].
  rewrite !orb_false_iff. intros [Hq Hqs] [Hc Hcs].
  split; [ | now apply IH ].
  unfold needs_quotes in Hq. unfold is_special.
  rewrite !orb_false_iff in *. tauto.
Qed.

(** A written cell, read from the start of a cell, leaves the tokenizer at
    the end of a cell with exactly the characters of the cell collected. *)
Lemma read_cell (cell : string) row rows :
  has_cr cell = false ->
  exists st,
    cell_end st /\
    forall tail,
      tokenize START_FIELD [] row rows (write_cell cell ++ tail)
      = tokenize st (rev (list_ascii_of_string cell)) row rows tail.
Proof.
  unfold write_cell, has_cr. intros Hcr.
  destruct (existsb needs_quotes (list_ascii_of_string cell)) eqn:E.
  - exists QUOTE_IN_QUOTED_FIELD. split; [ unfold cell_end; tauto | ].
    intros tail. rewrite <- app_comm_cons, <- app_assoc. simpl app.
    change (tokenize START_FIELD [] row rows
              (dquote :: double_quotes (list_ascii_of_string cell) ++ dquote :: tail))
      with (tokenize IN_QUOTED_FIELD [] row rows
              (double_quotes (list_ascii_of_string cell) ++ dquote :: tail)).
    rewrite read_quoted. now rewrite app_nil_r.
  - pose proof (plain_chars _ E Hcr) as Hp.
    destruct (list_ascii_of_string cell) as [| c cs] eqn:Ec.
    + exists START_FIELD. split; [ unfold cell_end; tauto | ]. reflexivity.
    + exists IN_FIELD. split; [ unfold cell_end; tauto | ].
      intros tail. simpl in Hp. apply orb_false_iff in Hp.
      destruct Hp as [Hc Hcs].
      rewrite <- app_comm_cons, step_start_field by exact Hc.
      rewrite read_plain by exact Hcs. reflexivity.
Qed.

Lemma end_field_cell (cell : string) row :
  end_field (rev (list_ascii_of_string cell)) row = cell :: row.
Proof.
  unfold end_field. now rewrite rev_involutive, string_of_list_ascii_of_string.
Qed.

(** ** Reading back one written line *)

Lemma read_cells cells : forall row rows rest,
  cells <> [] ->
  Forall (fun cell => has_cr cell = false) cells ->
  tokenize START_FIELD [] row rows (write_cells cells ++ rest)
  = tokenize START_RECORD [] [] (end_line (rev cells ++ row) rows) rest.
Proof.
  induction cells as [| cell cells IH]; intros row rows rest Hne Hcr.
  - congruence.
  - inversion Hcr as [| ? ? Hcell Hcells]; subst.
    destruct (read_cell cell row rows Hcell) as (st & Hst & Hread).
    destruct cells as [| cell' cells].
    + simpl write_cells. rewrite <- app_assoc, Hread. simpl app.
      rewrite step_line_feed by exact Hst. now rewrite end_field_cell.
    + change (write_cells (cell :: cell' :: cells))
        with (write_cell cell ++ comma :: write_cells (cell' :: cells)).
      rewrite <- app_assoc, Hread, <- app_comm_cons.
      rewrite step_comma by exact Hst. rewrite end_field_cell.
      rewrite IH by (discriminate || assumption).
      simpl rev. now rewrite <- !app_assoc.
Qed.

(** ** Reading back the written lines *)

Lemma start_record_as_field c rows rest :
  c = dquote \/ starts_line c = true ->
  tokenize START_RECORD [] [] rows (c :: rest)
  = tokenize START_FIELD [] [] rows (c :: rest).
Proof.
  intros [-> | H]; [ reflexivity | ].
  unfold starts_line in H. apply negb_true_iff in H.
  rewrite !orb_false_iff in H. destruct H as [[Hs Hsp] Htab].
  apply special_false in Hs. destruct Hs as (H1 & H2 & H3 & H4).
  simpl. now rewrite H3, H4, Hsp, Htab.
Qed.

Lemma write_cell_head cell :
  leads cell = true ->
  exists c t, write_cell cell = c :: t /\ (c = dquote \/ starts_line c = true).
Proof.
  intros H. unfold write_cell. destruct cell as [| c cell]; [ discriminate | ].
  simpl in H. simpl list_ascii_of_string.
  destruct (existsb needs_quotes (c :: list_ascii_of_string cell)); eauto.
Qed.

Lemma write_cells_head cell cells :
  leads cell = true ->
  exists c t, write_cells (cell :: cells) = c :: t
              /\ (c = dquote \/ starts_line c = true).
Proof.
  intros H. destruct (write_cell_head cell H) as (c & t & Hw & Hc).
  destruct cells as [| cell' cells].
  - exists c, (t ++ [LF]). simpl. rewrite Hw. auto.
  - exists c, (t ++ comma :: write_cells (cell' :: cells)).
    change (write_cells (cell :: cell' :: cells))
      with (write_cell cell ++ comma :: write_cells (cell' :: cells)).
    rewrite Hw. auto.
Qed.

Lemma read_line line rows rest :
  well_led line ->
  tokenize START_RECORD [] [] rows (write_cells line ++ rest)
  = tokenize START_RECORD [] [] (line :: rows) rest.
Proof.
  intros ((cell & cells & -> & Hl) & Hcr).
  destruct (write_cells_head cell cells Hl) as (c & t & Hw & Hc).
  pose proof (read_cells (cell :: cells) [] rows rest ltac:(discriminate) Hcr)
    as H.
  rewrite Hw in *. rewrite <- app_comm_cons in *.
  rewrite start_record_as_field by exact Hc. rewrite H.
  unfold end_line. now rewrite app_nil_r, rev_involutive.
Qed.

Lemma read_lines table : forall rows,
  Forall well_led table ->
  tokenize START_RECORD [] [] rows (write_rows table)
  = Some (rev rows ++ table).
Proof.
  induction table as [| line table IH]; intros rows H.
  - simpl. now rewrite app_nil_r.
  - inversion H as [| ? ? Hline Htable]; subst.
    unfold write_rows in *. simpl List.concat.
    rewrite read_line by exact Hline. rewrite IH by exact Htable.
    simpl. now rewrite <- app_assoc.
Qed.

(** ** Cells: written then read *)

Lemma digit_cases k :
  0 <= k <= 9 ->
  k = 0 \/ k = 1 \/ k = 2 \/ k = 3 \/ k = 4 \/ k = 5 \/ k = 6 \/ k = 7
  \/ k = 8 \/ k = 9.
Proof. lia. Qed.

(** A fact about [digit k] checked on each of the ten digits. *)
Ltac by_digit H :=
  apply digit_cases in H;
  repeat (destruct H as [-> | H]; [ reflexivity | ]);
  subst; reflexivity.

Lemma digit_val_digit k : 0 <= k <= 9 -> digit_val (digit k) = Some k.
Proof. intros H. by_digit H. Qed.

Lemma digit_starts_line k : 0 <= k <= 9 -> starts_line (digit k) = true.
Proof. intros H. by_digit H. Qed.

Lemma digit_not_cr k : 0 <= k <= 9 -> Ascii.eqb (digit k) CR = false.
Proof. intros H. by_digit H. Qed.

Lemma num2_digits n :
  0 <= n < 100 -> num2 (digit (n / 10)) (digit (n mod 10)) = Some n.
Proof.
  intros H. unfold num2.
  rewrite !digit_val_digit by (Z.to_euclidean_division_equations; lia).
  f_equal. Z.to_euclidean_division_equations; lia.
Qed.

Lemma num4_digits n :
  0 <= n < 10000 ->
  num4 (digit (n / 1000)) (digit (n / 100 mod 10))
       (digit (n / 10 mod 10)) (digit (n mod 10)) = Some n.
Proof.
  intros H. unfold num4, num2.
  rewrite !digit_val_digit by (Z.to_euclidean_division_equations; lia).
  f_equal. Z.to_euclidean_division_equations; lia.
Qed.

Lemma days_in_month_le y m : days_in_month y m <= 31.
Proof.
  unfold days_in_month.
  destruct (m =? 2); [ destruct (is_leap y); lia | ].
  destruct ((m =? 4) || (m =? 6) || (m =? 9) || (m =? 11)); lia.
Qed.

Lemma valid_date_bounds d :
  valid_date d = true ->
  1677 <= year d <= 2262 /\ 1 <= month d <= 12 /\ 1 <= day d <= 31.
Proof.
  unfold valid_date. rewrite !andb_true_iff, !Z.leb_le, !date_leb_le.
  unfold date_le. simpl. pose proof (days_in_month_le (year d) (month d)). lia.
Qed.

Lemma parse_format_date d :
  valid_date d = true -> parse_date (format_date d) = Some d.
Proof.
  intros Hv. pose proof (valid_date_bounds d Hv) as (Hy & Hm & Hd).
  unfold parse_date, format_date.
  rewrite list_ascii_of_string_of_list_ascii.
  rewrite Ascii.eqb_refl. simpl andb.
  rewrite num4_digits, !num2_digits by lia.
  destruct d as [y m dd]. simpl in *. now rewrite Hv.
Qed.

Lemma parse_date_valid cell d : parse_date cell = Some d -> valid_date d = true.
Proof.
  unfold parse_date.
  destruct (list_ascii_of_string cell)
    as [| y1 [| y2 [| y3 [| y4 [| h1 [| m1 [| m2 [| h2 [| d1 [| d2 [| ? ?]]]]]]]]]]];
    try discriminate.
  destruct (Ascii.eqb h1 hyphen && Ascii.eqb h2 hyphen); [ | discriminate ].
  destruct (num4 y1 y2 y3 y4); [ | discriminate ].
  destruct (num2 m1 m2); [ | discriminate ].
  destruct (num2 d1 d2); [ | discriminate ].
  destruct (valid_date _) eqn:E; [ | discriminate ].
  now intros [= <-].
Qed.

Lemma format_date_leads d : valid_date d = true -> leads (format_date d) = true.
Proof.
  intros Hv. pose proof (valid_date_bounds d Hv) as (Hy & _).
  unfold format_date. simpl. apply digit_starts_line.
  Z.to_euclidean_division_equations; lia.
Qed.

Lemma int_of_format_int z :
  option_map Z.of_int (NilZero.int_of_string (format_int z)) = Some z.
Proof.
  unfold format_int.
  rewrite NilZero.isi.
  - simpl. now rewrite DecimalZ.of_to.
  - destruct z as [| p | p]; simpl; try discriminate.
    intros [= H]. now apply (DecimalPos.Unsigned.to_uint_nonnil p).
  - destruct z as [| p | p]; simpl; try discriminate.
    intros [= H]. now apply (DecimalPos.Unsigned.to_uint_nonnil p).
Qed.

Lemma parse_format_int z :
  in_int64 z = true -> parse_int (format_int z) = Some z.
Proof.
  intros H. unfold parse_int. now rewrite int_of_format_int, H.
Qed.

Lemma parse_int_in_range cell z : parse_int cell = Some z -> in_int64 z = true.
Proof.
  unfold parse_int.
  destruct (option_map Z.of_int (NilZero.int_of_string cell)) as [v | ];
    [ | discriminate ].
  destruct (in_int64 v) eqn:E; [ | discriminate ].
  now intros [= <-].
Qed.

Lemma format_date_no_cr d : valid_date d = true -> has_cr (format_date d) = false.
Proof.
  intros Hv. pose proof (valid_date_bounds d Hv) as (Hy & Hm & Hd).
  unfold has_cr, format_date. rewrite list_ascii_of_string_of_list_ascii.
  cbn [existsb].
  rewrite !digit_not_cr by (Z.to_euclidean_division_equations; lia).
  reflexivity.
Qed.

Lemma string_of_uint_no_cr d : has_cr (NilEmpty.string_of_uint d) = false.
Proof. unfold has_cr. induction d; simpl; auto. Qed.

Lemma format_int_no_cr z : has_cr (format_int z) = false.
Proof.
  unfold format_int. destruct (Z.to_int z) as [d | d]; simpl.
  - destruct d; try reflexivity; apply (string_of_uint_no_cr (_ d)).
  - unfold has_cr. simpl.
    destruct d; try reflexivity; apply (string_of_uint_no_cr (_ d)).
Qed.

(** ** Fallible traversals *)

Lemma traverse_map {A B C} (f : B -> outcome C) (g : A -> B) (l : list A) :
  traverse f (map g l) = traverse (fun x => f (g x)) l.
Proof. induction l as [| x l IH]; simpl; [ | rewrite IH ]; reflexivity. Qed.

Lemma traverse_done {A B} (f : A -> outcome B) (g : A -> B) (l : list A) :
  (forall x, In x l -> f x = Done (g x)) -> traverse f l = Done (map g l).
Proof.
  induction l as [| x l IH]; intros H; simpl; [ reflexivity | ].
  rewrite (H x) by (simpl; auto). simpl.
  rewrite IH by (intros y Hy; apply H; simpl; auto). reflexivity.
Qed.

Lemma traverse_Forall {A B} (f : A -> outcome B) (P : B -> Prop) :
  (forall x y, f x = Done y -> P y) ->
  forall l ys, traverse f l = Done ys -> Forall P ys.
Proof.
  intros Hf. induction l as [| x l IH]; simpl; intros ys H.
  - inversion H. constructor.
  - destruct (f x) as [y | | e | ] eqn:Ex; simpl in H; try discriminate.
    destruct (traverse f l) as [zs | | e | ] eqn:El; simpl in H; try discriminate.
    inversion H; subst. constructor; eauto.
Qed.

Lemma column_Forall {A} (parse : string -> option A) (P : A -> Prop)
    name raw vs :
  (forall cell v, parse cell = Some v -> P v) ->
  column parse name raw = Done vs -> Forall P vs.
Proof.
  intros Hp. unfold column.
  destruct (index_of name (columns raw)) as [i | ]; [ | discriminate ].
  apply traverse_Forall. intros l y.
  destruct (nth_error l i) as [cell | ]; [ | discriminate ].
  destruct (parse cell) as [v | ] eqn:E; [ | discriminate ].
  intros [= <-]. eauto.
Qed.

(** ** Inferred column types *)

Lemma parse_all_map {A B} (parse : string -> option A) (f : B -> string)
    (g : B -> A) (l : list B) :
  (forall x, In x l -> parse (f x) = Some (g x)) ->
  parse_all parse (map f l) = Some (map g l).
Proof.
  induction l as [| x l IH]; intros H; simpl; [ reflexivity | ].
  rewrite (H x) by (simpl; auto).
  rewrite IH by (intros y Hy; apply H; simpl; auto). reflexivity.
Qed.

Lemma parse_all_Forall {A} (parse : string -> option A) (P : A -> Prop) :
  (forall cell v, parse cell = Some v -> P v) ->
  forall cells vs, parse_all parse cells = Some vs -> Forall P vs.
Proof.
  intros Hp. induction cells as [| cell cells IH]; simpl; intros vs H.
  - inversion H. constructor.
  - destruct (parse cell) as [v | ] eqn:E; [ | discriminate ].
    destruct (parse_all parse cells) as [ws | ]; [ | discriminate ].
    inversion H; subst. constructor; eauto.
Qed.

Lemma parse_all_fails {A} (parse : string -> option A) cells cell :
  In cell cells -> parse cell = None -> parse_all parse cells = None.
Proof.
  induction cells as [| c cells IH]; intros Hin Hp; [ contradiction | ].
  simpl. destruct Hin as [-> | Hin].
  - now rewrite Hp.
  - rewrite (IH Hin Hp). now destruct (parse c).
Qed.

Lemma string_of_uint_numeric d :
  forallb numeric_char (list_ascii_of_string (NilEmpty.string_of_uint d)) = true.
Proof. induction d; simpl; auto. Qed.

Lemma string_of_int_numeric d :
  forallb numeric_char (list_ascii_of_string (NilZero.string_of_int d)) = true.
Proof.
  destruct d as [d | d]; simpl.
  - destruct d; try reflexivity; apply (string_of_uint_numeric (_ d)).
  - destruct d; try reflexivity; apply (string_of_uint_numeric (_ d)).
Qed.

(** A cell that is certainly text is no integer numeral. *)
Lemma certainly_text_not_int cell :
  certainly_text cell = true -> parse_int cell = None.
Proof.
  unfold certainly_text, parse_int. rewrite negb_true_iff, orb_false_iff.
  intros [Hn _].
  destruct (NilZero.int_of_string cell) as [d | ] eqn:E; [ | reflexivity ].
  apply NilZero.sis in E. subst cell.
  now rewrite string_of_int_numeric in Hn.
Qed.

Lemma infer_text col :
  col <> [] -> existsb certainly_text col = true ->
  existsb (fun cell => member cell na_values) col = false ->
  infer_dtype col = ObjectColumn col.
Proof.
  intros Hne H Hna. destruct col as [| c col]; [ congruence | ].
  unfold infer_dtype. rewrite Hna, H.
  apply existsb_exists in H. destruct H as (cell & Hin & Hc).
  now rewrite (parse_all_fails parse_int (c :: col) cell Hin)
    by (now apply certainly_text_not_int).
Qed.

Lemma text_cells_present col :
  Forall text_cell col -> existsb (fun cell => member cell na_values) col = false.
Proof.
  induction 1 as [| c col [Hc _] _ IH]; [ reflexivity | ].
  cbn [existsb]. now rewrite Hc, IH.
Qed.

Lemma infer_stays_text col :
  Forall text_cell col -> stays_text col = true ->
  infer_dtype col = ObjectColumn col.
Proof.
  destruct col as [| c col]; [ reflexivity | ].
  intros Ht H. apply infer_text; [ discriminate | | now apply text_cells_present ].
  unfold stays_text in H. simpl in H. apply andb_true_iff in H.
  simpl. now rewrite (proj1 H).
Qed.

Lemma infer_ints (zs : list Z) :
  zs <> [] -> Forall (fun z => in_int64 z = true) zs ->
  infer_dtype (map format_int zs) = Int64Column zs.
Proof.
  intros Hne H. destruct zs as [| z zs]; [ congruence | ].
  unfold infer_dtype. cbn [map].
  change (format_int z :: map format_int zs) with (map format_int (z :: zs)).
  rewrite (parse_all_map parse_int format_int (fun v => v)).
  - now rewrite map_id.
  - rewrite Forall_forall in H. intros x Hx. now apply parse_format_int, H.
Qed.

Lemma infer_ints_range cells zs :
  infer_dtype cells = Int64Column zs -> Forall (fun z => in_int64 z = true) zs.
Proof.
  unfold infer_dtype. destruct cells as [| c cells]; [ discriminate | ].
  destruct (parse_all parse_int (c :: cells)) as [vs | ] eqn:E.
  - intros [= <-]. eapply parse_all_Forall; [ | exact E ].
    apply parse_int_in_range.
  - destruct (existsb _ (c :: cells)); [ discriminate | ].
    destruct (existsb certainly_text (c :: cells)); discriminate.
Qed.

(** ** What the loader guarantees about a frame *)

Lemma parse_text_cell cell v : parse_text cell = Some v -> text_cell v.
Proof.
  unfold parse_text, text_cell.
  destruct (member cell na_values || has_cr cell) eqn:E; [ discriminate | ].
  intros [= <-]. now apply orb_false_iff in E.
Qed.

Lemma parse_text_same cell : text_cell cell -> parse_text cell = Some cell.
Proof. intros [H1 H2]. unfold parse_text. now rewrite H1, H2. Qed.

Lemma text_column_cells name raw vs :
  text_column name raw = Done vs -> Forall text_cell vs.
Proof.
  unfold text_column.
  destruct (raw_column name raw) as [cells | | e | ]; cbn [bind];
    try discriminate.
  destruct (infer_dtype cells) as [cells' | | ]; try discriminate.
  apply traverse_Forall. intros cell v.
  destruct (parse_text cell) as [w | ] eqn:E; [ | discriminate ].
  intros [= <-]. eapply parse_text_cell; eauto.
Qed.

Lemma int_column_range name raw zs :
  int_column name raw = Done zs -> Forall (fun z => in_int64 z = true) zs.
Proof.
  unfold int_column.
  destruct (raw_column name raw) as [cells | | e | ]; cbn [bind];
    try discriminate.
  destruct (infer_dtype cells) as [[| c cells'] | values | ] eqn:E;
    try discriminate.
  - intros [= <-]. constructor.
  - intros [= <-]. eapply infer_ints_range; eauto.
Qed.

Lemma zip_rows_loaded dates : forall categories regions saless profits,
  Forall (fun d => valid_date d = true) dates ->
  Forall text_cell categories ->
  Forall text_cell regions ->
  Forall (fun z => in_int64 z = true) saless ->
  Forall (fun z => in_int64 z = true) profits ->
  Forall loaded_row (zip_rows dates categories regions saless profits).
Proof.
  induction dates as [| d dates IH];
    intros [| c categories] [| g regions] [| s saless] [| p profits]
           Hd Hc Hg Hs Hp;
    simpl; try constructor.
  - inversion Hd; inversion Hc; inversion Hg; inversion Hs; inversion Hp; subst.
    unfold loaded_row. simpl. tauto.
  - inversion Hd; inversion Hc; inversion Hg; inversion Hs; inversion Hp; subst.
    now apply IH.
Qed.

Lemma typed_frame_loaded raw df :
  typed_frame raw = Done df -> Forall loaded_row df.
Proof.
  unfold typed_frame.
  destruct (column parse_date "date" raw) as [dates | | e | ] eqn:Ed;
    simpl; try discriminate.
  destruct (text_column "category" raw) as [categories | | e | ] eqn:Ec;
    simpl; try discriminate.
  destruct (text_column "region" raw) as [regions | | e | ] eqn:Eg;
    simpl; try discriminate.
  destruct (int_column "sales" raw) as [saless | | e | ] eqn:Es;
    simpl; try discriminate.
  destruct (int_column "profit" raw) as [profits | | e | ] eqn:Ep;
    simpl; try discriminate.
  intros [= <-]. apply zip_rows_loaded.
  - eapply column_Forall; [ | exact Ed ]. apply parse_date_valid.
  - eapply text_column_cells; eauto.
  - eapply text_column_cells; eauto.
  - eapply int_column_range; eauto.
  - eapply int_column_range; eauto.
Qed.

Lemma load_loaded text df : load text = Done df -> Forall loaded_row df.
Proof.
  unfold load.
  destruct (read_csv text) as [raw | | e | ]; simpl; try discriminate.
  apply typed_frame_loaded.
Qed.

Lemma filtered_df_In df date_range categories regions r :
  In r (filtered_df df date_range categories regions) -> In r df.
Proof.
  destruct (two_bounds_or_not date_range) as [(start & stop & ->) | Hlen].
  - rewrite filtered_df_two_bounds, filter_In. tauto.
  - rewrite filtered_df_fallback by exact Hlen. rewrite filter_In. tauto.
Qed.

Lemma filtered_df_loaded df date_range categories regions :
  Forall loaded_row df ->
  Forall loaded_row (filtered_df df date_range categories regions).
Proof.
  rewrite !Forall_forall. intros H r Hr. apply H.
  eapply filtered_df_In; eauto.
Qed.

(** ** The export read back *)

Lemma read_csv_to_csv df :
  Forall loaded_row df ->
  read_csv (to_csv df) = Done (mkRaw header (map row_cells df)).
Proof.
  intros H. unfold read_csv, to_csv.
  rewrite list_ascii_of_string_of_list_ascii.
  rewrite read_lines.
  - assert (Hlen : forallb (fun l => (List.length l =? List.length header)%nat)
                           (map row_cells df) = true).
    { apply forallb_forall. intros l Hl.
      apply in_map_iff in Hl. destruct Hl as (r & <- & _). reflexivity. }
    simpl app. cbv iota. now rewrite Hlen.
  - constructor.
    + split; [ exists "date"%string, (tl header); split; reflexivity | ].
      repeat constructor.
    + apply Forall_forall. intros l Hl.
      apply in_map_iff in Hl. destruct Hl as (r & <- & Hr).
      rewrite Forall_forall in H. destruct (H r Hr) as (Hv & Hc & Hg & _).
      split.
      * eexists _, _. split; [ reflexivity | ]. now apply format_date_leads.
      * unfold row_cells. repeat constructor.
        -- now apply format_date_no_cr.
        -- apply Hc.
        -- apply Hg.
        -- apply format_int_no_cr.
        -- apply format_int_no_cr.
Qed.

Lemma zip_rows_columns df :
  zip_rows (map date df) (map category df) (map region df)
           (map sales df) (map profit df) = df.
Proof.
  induction df as [| r df IH]; simpl; [ reflexivity | ].
  rewrite IH. now destruct r.
Qed.

Lemma raw_column_exported name i (cell_of : Row -> string) (df : DataFrame) :
  index_of name header = Some i ->
  (forall r, nth_error (row_cells r) i = Some (cell_of r)) ->
  raw_column name (mkRaw header (map row_cells df)) = Done (map cell_of df).
Proof.
  intros Hi H. unfold raw_column. cbn [columns lines]. rewrite Hi.
  rewrite traverse_map. apply traverse_done.
  intros r _. now rewrite H.
Qed.

Lemma column_exported {A} (parse : string -> option A) name i
    (get : Row -> A) (df : DataFrame) :
  index_of name header = Some i ->
  (forall r, In r df ->
             exists cell, nth_error (row_cells r) i = Some cell
                          /\ parse cell = Some (get r)) ->
  column parse name (mkRaw header (map row_cells df)) = Done (map get df).
Proof.
  intros Hi H. unfold column. cbn [columns lines]. rewrite Hi.
  rewrite traverse_map. apply traverse_done.
  intros r Hr. destruct (H r Hr) as (cell & Hc & Hp). now rewrite Hc, Hp.
Qed.

Lemma text_column_exported name i (get : Row -> string) (df : DataFrame) :
  index_of name header = Some i ->
  (forall r, nth_error (row_cells r) i = Some (get r)) ->
  Forall text_cell (map get df) ->
  stays_text (map get df) = true ->
  text_column name (mkRaw header (map row_cells df)) = Done (map get df).
Proof.
  intros Hi Hn Ht Hs. unfold text_column.
  rewrite (raw_column_exported name i get df Hi Hn). cbn [bind].
  rewrite (infer_stays_text _ Ht Hs).
  rewrite <- (map_id (map get df)) at 2. apply traverse_done.
  intros cell Hc. rewrite Forall_forall in Ht.
  now rewrite (parse_text_same cell (Ht cell Hc)).
Qed.

Lemma int_column_exported name i (get : Row -> Z) (df : DataFrame) :
  index_of name header = Some i ->
  (forall r, nth_error (row_cells r) i = Some (format_int (get r))) ->
  Forall (fun z => in_int64 z = true) (map get df) ->
  int_column name (mkRaw header (map row_cells df)) = Done (map get df).
Proof.
  intros Hi Hn Hr. unfold int_column.
  rewrite (raw_column_exported name i (fun r => format_int (get r)) df Hi Hn).
  cbn [bind]. destruct df as [| r df]; [ reflexivity | ].
  rewrite <- map_map. rewrite infer_ints; [ reflexivity | discriminate | exact Hr ].
Qed.

Lemma typed_frame_exported df :
  Forall loaded_row df ->
  stays_text (map category df) = true ->
  stays_text (map region df) = true ->
  typed_frame (mkRaw header (map row_cells df)) = Done df.
Proof.
  intros H Hc Hg. unfold typed_frame.
  assert (Hall : forall r, In r df -> loaded_row r)
    by (now apply Forall_forall).
  rewrite (column_exported parse_date "date" 0 date) ; [ | reflexivity | ].
  2:{ intros r Hr. destruct (Hall r Hr) as (Hv & _).
      eexists. split; [ reflexivity | ]. now apply parse_format_date. }
  cbn [bind].
  rewrite (text_column_exported "category" 1 category);
    [ | reflexivity | reflexivity | | exact Hc ].
  2:{ apply Forall_forall. intros c Hin. apply in_map_iff in Hin.
      destruct Hin as (r & <- & Hr). apply (Hall r Hr). }
  cbn [bind].
  rewrite (text_column_exported "region" 2 region);
    [ | reflexivity | reflexivity | | exact Hg ].
  2:{ apply Forall_forall. intros c Hin. apply in_map_iff in Hin.
      destruct Hin as (r & <- & Hr). apply (Hall r Hr). }
  cbn [bind].
  rewrite (int_column_exported "sales" 3 sales); [ | reflexivity | reflexivity | ].
  2:{ apply Forall_forall. intros z Hin. apply in_map_iff in Hin.
      destruct Hin as (r & <- & Hr). apply (Hall r Hr). }
  cbn [bind].
  rewrite (int_column_exported "profit" 4 profit);
    [ | reflexivity | reflexivity | ].
  2:{ apply Forall_forall. intros z Hin. apply in_map_iff in Hin.
      destruct Hin as (r & <- & Hr). apply (Hall r Hr). }
  cbn [bind]. now rewrite zip_rows_columns.
Qed.

Lemma load_to_csv df :
  Forall loaded_row df ->
  stays_text (map category df) = true ->
  stays_text (map region df) = true ->
  load (to_csv df) = Done df.
Proof.
  intros H Hc Hg. unfold load. rewrite read_csv_to_csv by exact H.
  simpl bind. now apply typed_frame_exported.
Qed.




(** * Properties of the whole run *)

Lemma filtered_df_empty_frame date_range categories regions :
  filtered_df [] date_range categories regions = [].
Proof. now destruct date_range as [| a [| b [| c l]]]. Qed.

Lemma date_input_nat chosen :
  date_input (series_min [], series_max []) (series_min []) (series_max [])
             chosen
  = Raised ValueError.
Proof. reflexivity. Qed.

(** ** The staged run and the frame loaded at once

    [dashboard] converts each column where the script first uses it;
    [load_source] converts all five at once.  When the latter succeeds, the
    columns the run meets are the columns of the loaded frame. *)

Lemma traverse_length {A B} (f : A -> outcome B) (l : list A) :
  forall ys, traverse f l = Done ys -> List.length ys = List.length l.
Proof.
  induction l as [| x l IH]; simpl; intros ys H.
  - now inversion H.
  - destruct (f x) as [y | | e | ]; simpl in H; try discriminate.
    destruct (traverse f l) as [zs | | e | ]; simpl in H; try discriminate.
    inversion H; subst. simpl. now rewrite (IH zs).
Qed.

Lemma parse_all_length {A} (parse : string -> option A) (cells : list string) :
  forall vs, parse_all parse cells = Some vs ->
             List.length vs = List.length cells.
Proof.
  induction cells as [| c cells IH]; simpl; intros vs H.
  - now inversion H.
  - destruct (parse c) as [v | ]; [ | discriminate ].
    destruct (parse_all parse cells) as [ws | ]; [ | discriminate ].
    inversion H; subst. simpl. now rewrite (IH ws).
Qed.

Lemma infer_object cells cells' :
  infer_dtype cells = ObjectColumn cells' -> cells' = cells.
Proof.
  unfold infer_dtype. destruct cells as [| c cells]; [ congruence | ].
  destruct (parse_all parse_int (c :: cells)); [ discriminate | ].
  destruct (existsb _ (c :: cells)); [ discriminate | ].
  destruct (existsb certainly_text (c :: cells)); congruence.
Qed.

Lemma column_length {A} (parse : string -> option A) name raw l :
  column parse name raw = Done l -> List.length l = List.length (lines raw).
Proof.
  unfold column. destruct (index_of name (columns raw)); [ | discriminate ].
  apply traverse_length.
Qed.

Lemma raw_column_length name raw l :
  raw_column name raw = Done l -> List.length l = List.length (lines raw).
Proof.
  unfold raw_column. destruct (index_of name (columns raw)); [ | discriminate ].
  apply traverse_length.
Qed.

Lemma text_column_length name raw l :
  text_column name raw = Done l -> List.length l = List.length (lines raw).
Proof.
  unfold text_column.
  destruct (raw_column name raw) as [cells | | e | ] eqn:E; cbn [bind];
    try discriminate.
  destruct (infer_dtype cells) as [cells' | | ] eqn:Ei; try discriminate.
  apply infer_object in Ei. subst cells'. intros H.
  apply traverse_length in H. rewrite H. eapply raw_column_length; eauto.
Qed.

Lemma int_column_length name raw l :
  int_column name raw = Done l -> List.length l = List.length (lines raw).
Proof.
  unfold int_column.
  destruct (raw_column name raw) as [cells | | e | ] eqn:E; cbn [bind];
    try discriminate.
  apply raw_column_length in E. rewrite <- E.
  unfold infer_dtype. destruct cells as [| c cells].
  - now intros [= <-].
  - destruct (parse_all parse_int (c :: cells)) as [vs | ] eqn:Ep.
    + intros [= <-]. eapply parse_all_length; eauto.
    + destruct (existsb _ (c :: cells)); [ discriminate | ].
      destruct (existsb certainly_text (c :: cells)); discriminate.
Qed.

Lemma zip_rows_projections dates : forall categories regions saless profits,
  List.length categories = List.length dates ->
  List.length regions = List.length dates ->
  List.length saless = List.length dates ->
  List.length profits = List.length dates ->
  let df := zip_rows dates categories regions saless profits in
  map date df = dates /\ map category df = categories
  /\ map region df = regions /\ map sales df = saless
  /\ map profit df = profits.
Proof.
  induction dates as [| d dates IH];
    intros [| c categories] [| g regions] [| s saless] [| p profits];
    simpl; intros Hc Hg Hs Hp; try discriminate; [ tauto | ].
  destruct (IH categories regions saless profits) as (E1 & E2 & E3 & E4 & E5);
    try congruence.
  simpl in *. now rewrite E1, E2, E3, E4, E5.
Qed.

Lemma load_source_stages uploaded_file sample_data df :
  load_source uploaded_file sample_data = Done df ->
  exists raw,
    read_source uploaded_file sample_data = Done raw
    /\ column parse_date "date" raw = Done (map date df)
    /\ text_column "category" raw = Done (map category df)
    /\ text_column "region" raw = Done (map region df)
    /\ int_column "sales" raw = Done (map sales df)
    /\ int_column "profit" raw = Done (map profit df).
Proof.
  unfold load_source.
  destruct (read_source uploaded_file sample_data) as [raw | | e | ];
    cbn [bind]; try discriminate.
  unfold typed_frame.
  destruct (column parse_date "date" raw) as [dates | | e | ] eqn:Ed;
    cbn [bind]; try discriminate.
  destruct (text_column "category" raw) as [categories | | e | ] eqn:Ec;
    cbn [bind]; try discriminate.
  destruct (text_column "region" raw) as [regions | | e | ] eqn:Eg;
    cbn [bind]; try discriminate.
  destruct (int_column "sales" raw) as [saless | | e | ] eqn:Es;
    cbn [bind]; try discriminate.
  destruct (int_column "profit" raw) as [profits | | e | ] eqn:Ep;
    cbn [bind]; try discriminate.
  intros [= <-]. exists raw.
  pose proof (column_length _ _ _ _ Ed) as Ld.
  pose proof (text_column_length _ _ _ Ec) as Lc.
  pose proof (text_column_length _ _ _ Eg) as Lg.
  pose proof (int_column_length _ _ _ Es) as Ls.
  pose proof (int_column_length _ _ _ Ep) as Lp.
  destruct (zip_rows_projections dates categories regions saless profits)
    as (E1 & E2 & E3 & E4 & E5); try congruence.
  rewrite E1, E2, E3, E4, E5. tauto.
Qed.

(** After a successful load the run is the date widget followed by the
    filtering and display of the loaded frame. *)
Lemma dashboard_loaded uploaded_file sample_data ui df :
  load_source uploaded_file sample_data = Done df ->
  dashboard uploaded_file sample_data ui
  = (date_range <- date_input (series_min (map date df),
                               series_max (map date df))
                              (series_min (map date df))
                              (series_max (map date df))
                              (chosen_date_range ui) ;;
     let categories := multiselect (unique (map category df))
                                   (unique (map category df))
                                   (chosen_categories ui) in
     let regions := multiselect (unique (map region df))
                                (unique (map region df))
                                (chosen_regions ui) in
     let filtered := filtered_df df date_range categories regions in
     let moving := if show_moving_avg ui
                   then Some (moving_avg (slider 3 30 7 (chosen_window ui))
                                         filtered)
                   else None in
     Done (mkPage filtered (metrics filtered) moving (to_csv filtered))).
Proof.
  intros H.
  destruct (load_source_stages _ _ _ H) as (raw & Er & Ed & Ec & Eg & Es & Ep).
  unfold dashboard. rewrite Er. cbn [bind]. rewrite Ed. cbn [bind].
  destruct (date_input _ _ _ _) as [date_range | | e | ]; cbn [bind];
    try reflexivity.
  rewrite Ec. cbn [bind]. rewrite Eg. cbn [bind]. rewrite Es. cbn [bind].
  rewrite Ep. cbn [bind]. now rewrite zip_rows_columns.
Qed.

(** A frame with at least one row has a first and a last date, so the date
    widget gets a proper default and every embedded step of the run completes:
    the page shows the view filtered by the widget values. *)
Lemma dashboard_nonempty_completes uploaded_file sample_data ui r df :
  load_source uploaded_file sample_data = Done (r :: df) ->
  exists date_range categories regions,
    let filtered := filtered_df (r :: df) date_range categories regions in
    dashboard uploaded_file sample_data ui
    = Done (mkPage filtered (metrics filtered)
                   (if show_moving_avg ui
                    then Some (moving_avg (slider 3 30 7 (chosen_window ui))
                                          filtered)
                    else None)
                   (to_csv filtered)).
Proof.
  intros H. rewrite (dashboard_loaded _ _ ui _ H).
  cbn [bind map series_min series_max].
  unfold date_input. cbn [bind]. eauto.
Qed.

(** With every filter widget left at its default the page shows the whole
    frame. *)
Lemma dashboard_default_shows_all uploaded_file sample_data moving window df :
  df <> [] ->
  load_source uploaded_file sample_data = Done df ->
  exists page,
    dashboard uploaded_file sample_data (mkWidgets None None None moving window)
    = Done page
    /\ page_view page = df.
Proof.
  intros Hne H. rewrite (dashboard_loaded _ _ _ _ H).
  destruct (series_min (map date df)) as [lo | ] eqn:Hlo;
    [ | destruct df; [ congruence | discriminate ] ].
  destruct (series_max (map date df)) as [hi | ] eqn:Hhi;
    [ | destruct df; [ congruence | discriminate ] ].
  cbn [date_input bind chosen_date_range chosen_categories chosen_regions
       multiselect].
  eexists. split; [ reflexivity | ]. cbn [page_view].
  now apply filter_at_bounds.
Qed.

(** C3: on the empty dataset (a CSV with its header line and no row) the
    loader succeeds with an empty frame and the filtering step maps the empty
    frame to the empty view for every criteria, but the run does not complete:
    the default of the date widget is the (min, max) of an empty column, which
    is NaT, and building the widget raises before the filtering step runs. *)
Theorem dashboard_empty_dataset_raises :
  forall (sample_data : option string) (ui : Widgets),
    load header_only_csv = Done []
    /\ (forall date_range categories regions,
          filtered_df [] date_range categories regions = [])
    /\ dashboard (Some header_only_csv) sample_data ui = Raised ValueError.
Proof.
  intros sample_data ui. split; [ reflexivity | ].
  split; [ apply filtered_df_empty_frame | reflexivity ].
Qed.

Example dashboard_scenario :
  exists page,
    dashboard None (Some scenario_csv)
              (mkWidgets (Some [jan 1; jan 2]) (Some ["A"%string])
                         (Some ["East"%string]) true (Some 3%nat))
    = Done page
    /\ List.length (page_view page) = 2%nat
    /\ m_total_sales (page_metrics page) = 300
    /\ m_total_profit (page_metrics page) = 30
    /\ m_profit_rate (page_metrics page) = Finite (10 # 1)
    /\ page_moving_avg page = Some [NaN; NaN].
Proof. eexists. vm_compute. repeat split. Qed.

Example dashboard_no_file :
  dashboard None None (mkWidgets None None None false None) = Stopped.
Proof. reflexivity. Qed.

(** A file with a date column, no category column and no row fails at the
    date widget, which the script builds before it looks at the categories. *)
Example dashboard_fails_at_first_use :
  dashboard (Some "date,region,sales,profit
"%string) None (mkWidgets None None None false None)
  = Raised ValueError.
Proof. reflexivity. Qed.

(** The window slider only gives sizes from 3 to 30. *)
Example slider_bounds :
  slider 3 30 7 None = 7%nat /\ slider 3 30 7 (Some 12%nat) = 12%nat
  /\ slider 3 30 7 (Some 2%nat) = 7%nat.
Proof. repeat split. Qed.

Lemma slider_in_bounds chosen :
  (3 <= slider 3 30 7 chosen <= 30)%nat.
Proof.
  unfold slider. destruct chosen as [w | ]; [ | lia ].
  destruct ((3 <=? w)%nat && (w <=? 30)%nat) eqn:E; [ | lia ].
  apply andb_true_iff in E. destruct E as [E1 E2].
  apply Nat.leb_le in E1, E2. lia.
Qed.

(** * Further properties of the filtering step *)

Lemma filtered_df_as_filter (date_range : list Date) categories regions :
  exists p, (forall l, filtered_df l date_range categories regions = filter p l).
Proof.
  destruct (two_bounds_or_not date_range) as [(start & stop & ->) | Hlen].
  - eexists. intros l. apply filtered_df_two_bounds.
  - eexists. intros l. now apply filtered_df_fallback.
Qed.

Lemma filter_twice {A} (f : A -> bool) (l : list A) :
  filter f (filter f l) = filter f l.
Proof.
  induction l as [| x l IH]; simpl; [ reflexivity | ].
  destruct (f x) eqn:E; simpl; [ rewrite E; f_equal | ]; exact IH.
Qed.

(** X1: filtering a filtered view again with the same widget values changes
    nothing. *)
Theorem filtered_df_idempotent :
  forall (df : DataFrame) (date_range : list Date)
         (categories regions : list string),
    filtered_df (filtered_df df date_range categories regions)
                date_range categories regions
    = filtered_df df date_range categories regions.
Proof.
  intros df date_range categories regions.
  destruct (filtered_df_as_filter date_range categories regions) as [p Hp].
  rewrite !Hp. apply filter_twice.
Qed.

Lemma filter_subseq_weaker {A} (f g : A -> bool) (l : list A) :
  (forall x, In x l -> f x = true -> g x = true) ->
  subseq (filter f l) (filter g l).
Proof.
  induction l as [| x l IH]; intros H; simpl.
  - constructor.
  - assert (IH' : subseq (filter f l) (filter g l))
      by (apply IH; intros y Hy; apply H; simpl; auto).
    destruct (f x) eqn:Ef.
    + rewrite (H x) by (simpl; auto). now apply subseq_keep.
    + destruct (g x); [ now apply subseq_skip | exact IH' ].
Qed.

Lemma member_incl x small large :
  incl small large -> member x small = true -> member x large = true.
Proof. rewrite !member_In. auto. Qed.

(** X2: selecting more categories, more regions or a wider date range never
    removes a row from the view: the narrower view is a subsequence of the
    wider one. *)
Theorem filtered_df_widening :
  forall (df : DataFrame) (categories categories' regions regions' : list string),
    incl categories categories' ->
    incl regions regions' ->
    (forall date_range,
        subseq (filtered_df df date_range categories regions)
               (filtered_df df date_range categories' regions'))
    /\ (forall start stop start' stop',
           date_le start' start -> date_le stop stop' ->
           subseq (filtered_df df [start; stop] categories regions)
                  (filtered_df df [start'; stop'] categories' regions')).
Proof.
  intros df categories categories' regions regions' Hc Hg. split.
  - intros date_range.
    destruct (two_bounds_or_not date_range) as [(start & stop & ->) | Hlen].
    + rewrite !filtered_df_two_bounds. apply filter_subseq_weaker.
      intros r _. unfold passes. rewrite !andb_true_iff.
      intros [[[H1 H2] H3] H4]. repeat split; eauto using member_incl.
    + rewrite !filtered_df_fallback by exact Hlen. apply filter_subseq_weaker.
      intros r _. rewrite !andb_true_iff.
      intros [H3 H4]. split; eauto using member_incl.
  - intros start stop start' stop' Hs He.
    rewrite !filtered_df_two_bounds. apply filter_subseq_weaker.
    intros r _. rewrite !passes_spec. rewrite <- !member_In.
    intros (H1 & H2 & H3 & H4). repeat split; eauto using member_incl.
    + eapply date_le_trans; eauto.
    + eapply date_le_trans; eauto.
Qed.

Lemma filtered_df_widening_witness :
  (forall date_range,
      subseq (filtered_df scenario date_range ["A"%string] ["East"%string])
             (filtered_df scenario date_range ["B"; "A"]%string
                          ["East"; "West"]%string))
  /\ (forall start stop start' stop',
         date_le start' start -> date_le stop stop' ->
         subseq (filtered_df scenario [start; stop] ["A"%string] ["East"%string])
                (filtered_df scenario [start'; stop'] ["B"; "A"]%string
                             ["East"; "West"]%string)).
Proof.
  apply (filtered_df_widening scenario ["A"%string] ["B"; "A"]%string
                              ["East"%string] ["East"; "West"]%string).
  - intros x Hx. simpl in *. tauto.
  - intros x Hx. simpl in *. tauto.
Defined.

Lemma member_same x values values' :
  (forall y, In y values <-> In y values') ->
  member x values = member x values'.
Proof.
  intros H. destruct (member x values') eqn:E.
  - apply member_In. apply H. now apply member_In.
  - destruct (member x values) eqn:E'; [ | reflexivity ].
    apply member_In in E'. apply H in E'. apply member_In in E'. congruence.
Qed.

(** X3: the view depends on the selections only as sets: the order in which the
    user picked the categories and regions, and repeated picks, do not matter. *)
Theorem filtered_df_selection_as_set :
  forall (df : DataFrame) (date_range : list Date)
         (categories categories' regions regions' : list string),
    (forall c, In c categories <-> In c categories') ->
    (forall g, In g regions <-> In g regions') ->
    filtered_df df date_range categories regions
    = filtered_df df date_range categories' regions'.
Proof.
  intros df date_range categories categories' regions regions' Hc Hg.
  destruct (two_bounds_or_not date_range) as [(start & stop & ->) | Hlen].
  - rewrite !filtered_df_two_bounds. apply filter_ext. intros r.
    unfold passes.
    now rewrite (member_same _ _ _ Hc), (member_same _ _ _ Hg).
  - rewrite !filtered_df_fallback by exact Hlen. apply filter_ext. intros r.
    now rewrite (member_same _ _ _ Hc), (member_same _ _ _ Hg).
Qed.

Lemma filtered_df_selection_as_set_witness :
  filtered_df scenario [jan 1; jan 3] ["A"; "B"]%string ["East"%string]
  = filtered_df scenario [jan 1; jan 3] ["B"; "A"; "B"]%string
                ["East"; "East"]%string.
Proof.
  apply (filtered_df_selection_as_set scenario [jan 1; jan 3]).
  - intros c. simpl. tauto.
  - intros g. simpl. tauto.
Defined.

(** ** The options of the widgets *)

Lemma subseq_trans {A} (l1 l2 l3 : list A) :
  subseq l1 l2 -> subseq l2 l3 -> subseq l1 l3.
Proof.
  intros H12 H23. revert l1 H12.
  induction H23 as [| x l2 l3 H IH | x l2 l3 H IH]; intros l1 H12.
  - exact H12.
  - apply subseq_skip. now apply IH.
  - inversion H12; subst.
    + apply subseq_skip. now apply IH.
    + apply subseq_keep. now apply IH.
Qed.

Lemma unique_subseq col : subseq (unique col) col.
Proof.
  induction col as [| x col IH]; simpl; [ constructor | ].
  apply subseq_keep. eapply subseq_trans; [ apply filter_subseq | exact IH ].
Qed.

Lemma unique_NoDup col : NoDup (unique col).
Proof.
  induction col as [| x col IH]; simpl; constructor.
  - rewrite filter_In, negb_true_iff, String.eqb_neq. tauto.
  - now apply NoDup_filter.
Qed.

Lemma filter_split {A} (f : A -> bool) (l : list A) : forall u x v,
  filter f l = u ++ x :: v ->
  exists m1 m2, l = m1 ++ x :: m2 /\ filter f m1 = u /\ filter f m2 = v.
Proof.
  induction l as [| a l IH]; intros u x v H; simpl in H.
  - destruct u; discriminate.
  - destruct (f a) eqn:Ea.
    + destruct u as [| b u]; simpl in H; injection H as -> H.
      * exists [], l. simpl. auto.
      * destruct (IH _ _ _ H) as (m1 & m2 & -> & H1 & H2).
        exists (b :: m1), m2. simpl. rewrite Ea, H1. auto.
    + destruct (IH _ _ _ H) as (m1 & m2 & -> & H1 & H2).
      exists (a :: m1), m2. simpl. rewrite Ea. auto.
Qed.

Lemma filter_split2 {A} (f : A -> bool) (l l1 l2 l3 : list A) x y :
  filter f l = l1 ++ x :: l2 ++ y :: l3 ->
  f x = true /\ f y = true
  /\ exists m1 m2 m3, l = m1 ++ x :: m2 ++ y :: m3.
Proof.
  intros H.
  assert (Hx : In x (filter f l)) by (rewrite H, in_app_iff; simpl; auto).
  assert (Hy : In y (filter f l)).
  { rewrite H, in_app_iff. right. right. rewrite in_app_iff. simpl. auto. }
  apply filter_In in Hx, Hy.
  split; [ tauto | ]. split; [ tauto | ].
  destruct (filter_split f l _ _ _ H) as (m1 & m2 & -> & _ & H2).
  destruct (filter_split f m2 _ _ _ H2) as (n1 & n2 & -> & _ & _).
  eauto.
Qed.

(** Where [x] stands before [y] among the distinct values, the first [x] of
    the column stands before every [y]. *)
Lemma unique_order col : forall l1 x l2 y l3,
  unique col = l1 ++ x :: l2 ++ y :: l3 ->
  exists p q, col = p ++ x :: q /\ ~ In x p /\ ~ In y p /\ In y q.
Proof.
  induction col as [| a col IH]; intros l1 x l2 y l3 H; simpl in H.
  - destruct l1; discriminate.
  - destruct l1 as [| b l1]; simpl in H; injection H as -> H.
    + exists [], col. simpl. split; [ reflexivity | ].
      split; [ tauto | ]. split; [ tauto | ].
      apply unique_In.
      assert (Hy : In y (filter (fun z => negb (z =? x)%string) (unique col)))
        by (rewrite H, in_app_iff; simpl; auto).
      apply filter_In in Hy. tauto.
    + destruct (filter_split2 _ _ _ _ _ _ _ H) as (Hx & Hy & m1 & m2 & m3 & E).
      destruct (IH _ _ _ _ _ E) as (p & q & -> & Hxp & Hyp & Hyq).
      apply negb_true_iff, String.eqb_neq in Hx, Hy.
      exists (b :: p), q. simpl. split; [ reflexivity | ].
      split; [ | split; [ | exact Hyq ] ]; intros [F | F]; congruence.
Qed.

(** X4: the options offered by the category and region widgets list every value
    of the column exactly once, in the order of first appearance in the data:
    they are a subsequence of the column that starts with its first cell, and
    whenever one option stands before another, the first cell of the column
    holding the former comes before every cell holding the latter. *)
Theorem unique_each_value_once :
  forall col : list string,
    NoDup (unique col)
    /\ (forall x, In x (unique col) <-> In x col)
    /\ subseq (unique col) col
    /\ (forall x col', col = x :: col' -> exists rest, unique col = x :: rest)
    /\ (forall l1 x l2 y l3,
          unique col = l1 ++ x :: l2 ++ y :: l3 ->
          exists p q, col = p ++ x :: q /\ ~ In x p /\ ~ In y p /\ In y q).
Proof.
  intros col. split; [ apply unique_NoDup | ].
  split; [ intros x; apply unique_In | ].
  split; [ apply unique_subseq | ].
  split; [ intros x col' ->; simpl; eauto | ].
  apply unique_order.
Qed.

Lemma fold_min_In col : forall d,
  fold_left date_min2 col d = d \/ In (fold_left date_min2 col d) col.
Proof.
  induction col as [| y col IH]; intros d; simpl; [ now left | ].
  destruct (IH (date_min2 d y)) as [H | H]; [ | now right; right ].
  rewrite H. unfold date_min2. destruct (date_leb d y); auto.
Qed.

Lemma fold_max_In col : forall d,
  fold_left date_max2 col d = d \/ In (fold_left date_max2 col d) col.
Proof.
  induction col as [| y col IH]; intros d; simpl; [ now left | ].
  destruct (IH (date_max2 d y)) as [H | H]; [ | now right; right ].
  rewrite H. unfold date_max2. destruct (date_leb d y); auto.
Qed.

(** X5: on a frame with at least one row the default of the date widget is a
    proper range: both bounds are dates of the frame, the first is not after
    the second, and every date of the frame lies between them. *)
Theorem default_date_range_proper :
  forall (r : Row) (df : DataFrame),
    exists lo hi,
      series_min (map date (r :: df)) = Some lo
      /\ series_max (map date (r :: df)) = Some hi
      /\ In lo (map date (r :: df)) /\ In hi (map date (r :: df))
      /\ date_le lo hi
      /\ (forall x, In x (r :: df) -> date_le lo (date x) /\ date_le (date x) hi).
Proof.
  intros r df. simpl series_min. simpl series_max.
  eexists _, _. split; [ reflexivity | ]. split; [ reflexivity | ].
  destruct (fold_min_le (map date df) (date r)) as [Hlo1 Hlo2].
  destruct (fold_max_ge (map date df) (date r)) as [Hhi1 Hhi2].
  split; [ | split; [ | split ] ].
  - simpl. destruct (fold_min_In (map date df) (date r)) as [-> | H]; auto.
  - simpl. destruct (fold_max_In (map date df) (date r)) as [-> | H]; auto.
  - eapply date_le_trans; eauto.
  - intros x [<- | Hx]; [ auto | ].
    split; [ apply Hlo2 | apply Hhi2 ]; now apply in_map.
Qed.

(** ** Totals of a view against totals of the frame *)

Lemma subseq_length {A} (l1 l2 : list A) :
  subseq l1 l2 -> (List.length l1 <= List.length l2)%nat.
Proof. induction 1; simpl; lia. Qed.

Lemma subseq_sum (value : Row -> Z) (l1 l2 : DataFrame) :
  subseq l1 l2 -> (forall r, In r l2 -> 0 <= value r) ->
  0 <= exact_sum (map value l1) <= exact_sum (map value l2).
Proof.
  induction 1 as [| x l1 l2 H IH | x l1 l2 H IH]; intros Hpos; simpl map.
  - unfold exact_sum. simpl. lia.
  - rewrite exact_sum_cons.
    assert (0 <= value x) by (apply Hpos; simpl; auto).
    assert (0 <= exact_sum (map value l1) <= exact_sum (map value l2))
      by (apply IH; intros r Hr; apply Hpos; simpl; auto).
    lia.
  - rewrite !exact_sum_cons.
    assert (0 <= value x) by (apply Hpos; simpl; auto).
    assert (0 <= exact_sum (map value l1) <= exact_sum (map value l2))
      by (apply IH; intros r Hr; apply Hpos; simpl; auto).
    lia.
Qed.

Lemma nonneg_in_range z : 0 <= z <= int64_max -> in_int64 z = true.
Proof.
  unfold in_int64, int64_min, int64_max.
  rewrite andb_true_iff, !Z.leb_le. lia.
Qed.

Lemma filtered_df_subseq df date_range categories regions :
  subseq (filtered_df df date_range categories regions) df.
Proof.
  destruct (filtered_df_as_filter date_range categories regions) as [p Hp].
  rewrite Hp. apply filter_subseq.
Qed.



(** Without the bound on the sum the total can be negative though no sale
    is: two sales of 2^62 add up to -2^63. *)
Example total_sales_wraps :
  total_sales [mkRow (jan 1) "A" "East" (2 ^ 62) 0;
               mkRow (jan 2) "A" "East" (2 ^ 62) 0] = - 2 ^ 63.
Proof. reflexivity. Qed.

(** * Further properties of the metrics *)

Local Open Scope Q_scope.

Lemma inject_Z_pos_nat n : (0 < n)%nat -> 0 < inject_Z (Z.of_nat n).
Proof. intros H. change 0 with (inject_Z 0). rewrite <- Zlt_Qlt. lia. Qed.

Lemma profit_rate_quotient filtered :
  total_sales filtered <> 0%Z ->
  exists q, profit_rate filtered = Finite q
            /\ q == inject_Z (100 * total_profit filtered)
                    / inject_Z (total_sales filtered).
Proof.
  intros Hs. unfold profit_rate, true_divide.
  apply Z.eqb_neq in Hs. rewrite Hs. unfold mul_int.
  eexists. split; [ reflexivity | ].
  rewrite !Qred_correct, inject_Z_mult.
  apply Z.eqb_neq in Hs.
  assert (~ inject_Z (total_sales filtered) == 0).
  { change 0 with (inject_Z 0). rewrite inject_Z_injective. exact Hs. }
  field. assumption.
Qed.

Lemma profit_rate_division_by_zero filtered :
  total_sales filtered = 0%Z ->
  profit_rate filtered
  = if (total_profit filtered =? 0)%Z then NaN
    else if (0 <? total_profit filtered)%Z then PosInf else NegInf.
Proof.
  intros Hs. unfold profit_rate, true_divide. rewrite Hs. simpl.
  destruct (total_profit filtered =? 0)%Z; [ reflexivity | ].
  destruct (0 <? total_profit filtered)%Z; reflexivity.
Qed.

(** ** A mean lies between the least and the greatest value *)

Lemma exact_sum_between col lo hi :
  (forall x, In x col -> (lo <= x <= hi)%Z) ->
  (lo * Z.of_nat (List.length col) <= exact_sum col
   <= hi * Z.of_nat (List.length col))%Z.
Proof.
  induction col as [| x col IH]; intros H.
  - unfold exact_sum. simpl. lia.
  - rewrite exact_sum_cons.
    assert (lo <= x <= hi)%Z by (apply H; simpl; auto).
    assert (lo * Z.of_nat (List.length col) <= exact_sum col
            <= hi * Z.of_nat (List.length col))%Z
      by (apply IH; intros y Hy; apply H; simpl; auto).
    simpl List.length. lia.
Qed.

Lemma series_mean_finite col :
  col <> [] ->
  series_mean col
  = Finite (Qred (inject_Z (exact_sum col)
                  / inject_Z (Z.of_nat (List.length col)))).
Proof. destruct col; [ congruence | reflexivity ]. Qed.

Lemma Finite_inj q q' : Finite q = Finite q' -> q = q'.
Proof. now intros [= ->]. Qed.

Lemma series_mean_between col q lo hi :
  series_mean col = Finite q ->
  (forall x, In x col -> (lo <= x <= hi)%Z) ->
  inject_Z lo <= q <= inject_Z hi.
Proof.
  intros Hq Hb. destruct col as [| x col]; [ discriminate | ].
  rewrite series_mean_finite in Hq by discriminate.
  apply Finite_inj in Hq. subst q.
  pose proof (exact_sum_between _ _ _ Hb) as [H1 H2].
  assert (Hn : 0 < inject_Z (Z.of_nat (List.length (x :: col))))
    by (apply inject_Z_pos_nat; simpl; lia).
  split.
  - rewrite Qred_correct. apply Qle_shift_div_l; [ exact Hn | ].
    rewrite <- inject_Z_mult, <- Zle_Qle. exact H1.
  - rewrite Qred_correct. apply Qle_shift_div_r; [ exact Hn | ].
    rewrite <- inject_Z_mult, <- Zle_Qle. exact H2.
Qed.

(** X8: the mean sales and the mean profit of a non-empty view are finite and
    lie between the least and the greatest value of their column. *)
Theorem mean_within_range :
  forall (filtered : DataFrame) (lo hi plo phi : Z),
    filtered <> [] ->
    (forall r, In r filtered ->
               (lo <= sales r <= hi)%Z /\ (plo <= profit r <= phi)%Z) ->
    (exists q, mean_sales filtered = Finite q
               /\ inject_Z lo <= q <= inject_Z hi)
    /\ (exists q, mean_profit filtered = Finite q
                  /\ inject_Z plo <= q <= inject_Z phi).
Proof.
  intros filtered lo hi plo phi Hne Hb. unfold mean_sales, mean_profit. split.
  - rewrite series_mean_finite by (destruct filtered; [ congruence | discriminate ]).
    eexists. split; [ reflexivity | ].
    eapply series_mean_between.
    + apply series_mean_finite.
      destruct filtered; [ congruence | discriminate ].
    + intros x Hx. apply in_map_iff in Hx. destruct Hx as (r & <- & Hr).
      now apply Hb.
  - rewrite series_mean_finite by (destruct filtered; [ congruence | discriminate ]).
    eexists. split; [ reflexivity | ].
    eapply series_mean_between.
    + apply series_mean_finite.
      destruct filtered; [ congruence | discriminate ].
    + intros x Hx. apply in_map_iff in Hx. destruct Hx as (r & <- & Hr).
      now apply Hb.
Qed.

Lemma mean_within_range_witness :
  (exists q, mean_sales scenario = Finite q
             /\ inject_Z 50 <= q <= inject_Z 200)
  /\ (exists q, mean_profit scenario = Finite q
                /\ inject_Z (-5) <= q <= inject_Z 20).
Proof.
  apply (mean_within_range scenario 50 200 (-5) 20).
  - discriminate.
  - intros r Hr. simpl in Hr.
    destruct Hr as [<- | [<- | [<- | []]]]; simpl; lia.
Defined.

(** ** The standard deviation *)

Lemma fold_squares_nonneg (avg : Q) (col : list Z) : forall acc,
  0 <= acc ->
  0 <= fold_left (fun acc x => acc + (avg - inject_Z x) * (avg - inject_Z x))
                 col acc.
Proof.
  induction col as [| x col IH]; intros acc H; simpl; [ exact H | ].
  apply IH.
  assert (Hs : 0 <= (avg - inject_Z x) * (avg - inject_Z x)).
  { destruct (avg - inject_Z x) as [a b]. unfold Qle, Qmult. simpl. nia. }
  lra.
Qed.

(** The summed squared deviations from any centre, with the squares
    multiplied out. *)
Lemma fold_squares_expand (avg : Q) (col : list Z) : forall acc,
  fold_left (fun acc x => acc + (avg - inject_Z x) * (avg - inject_Z x))
            col acc
  == acc + inject_Z (Z.of_nat (List.length col)) * avg * avg
     - 2 * avg * inject_Z (exact_sum col)
     + inject_Z (exact_sum (map (fun x => (x * x)%Z) col)).
Proof.
  induction col as [| x col IH]; intros acc.
  - change (exact_sum (map (fun x => (x * x)%Z) [])) with 0%Z.
    change (exact_sum []) with 0%Z. cbn [fold_left List.length Z.of_nat].
    change (inject_Z 0) with 0. ring.
  - cbn [fold_left]. rewrite IH.
    cbn [map]. rewrite !exact_sum_cons.
    cbn [List.length]. rewrite Nat2Z.inj_succ. unfold Z.succ.
    rewrite !inject_Z_plus, inject_Z_mult.
    change (inject_Z 1) with 1. ring.
Qed.

(** X9: the standard deviation is NaN exactly when the column has fewer than two
    values; otherwise it is the root of the sample variance of the column:
    a number that is never negative and equals
    (n * sum of squares - square of the sum) / (n * (n - 1)) for the n values
    of the column. *)
Theorem series_std_defined :
  forall col : list Z,
    ((List.length col < 2)%nat -> series_std col = StdNaN)
    /\ ((2 <= List.length col)%nat ->
        exists v, series_std col = SqrtOf v /\ 0 <= v
                  /\ let n := Z.of_nat (List.length col) in
                     v == inject_Z (n * exact_sum (map (fun x => (x * x)%Z) col)
                                    - exact_sum col * exact_sum col)
                          / inject_Z (n * (n - 1))).
Proof.
  intros col. split.
  - intros H. destruct col as [| x [| y col]]; simpl in H; try lia; reflexivity.
  - intros H.
    assert (Hn : inject_Z 2 <= inject_Z (Z.of_nat (List.length col)))
      by (rewrite <- Zle_Qle; lia).
    change (inject_Z 2) with 2 in Hn.
    assert (Hstd : series_std col
                   = SqrtOf (Qred (fold_left
                       (fun acc x =>
                          acc + (inject_Z (exact_sum col)
                                 / inject_Z (Z.of_nat (List.length col))
                                 - inject_Z x)
                                * (inject_Z (exact_sum col)
                                   / inject_Z (Z.of_nat (List.length col))
                                   - inject_Z x))
                       col 0
                     / (inject_Z (Z.of_nat (List.length col)) - 1)))).
    { destruct col as [| x [| y col]]; simpl in H; try lia. reflexivity. }
    rewrite Hstd. eexists. split; [ reflexivity | ].
    split.
    + rewrite Qred_correct. apply Qle_shift_div_l; [ lra | ].
      rewrite Qmult_0_l. apply fold_squares_nonneg. lra.
    + cbv zeta. rewrite fold_squares_expand.
      unfold Z.sub.
      rewrite !inject_Z_plus, !inject_Z_opp, !inject_Z_mult, !inject_Z_plus,
              !inject_Z_opp.
      change (inject_Z 1) with 1. rewrite Qred_correct.
      field. split; lra.
Qed.

(** * Further properties of the moving average *)

Lemma In_firstn_in {A} (n : nat) (l : list A) x : In x (firstn n l) -> In x l.
Proof.
  intros H. rewrite <- (firstn_skipn n l). apply in_or_app. now left.
Qed.

Lemma In_skipn_in {A} (n : nat) (l : list A) x : In x (skipn n l) -> In x l.
Proof.
  intros H. rewrite <- (firstn_skipn n l). apply in_or_app. now right.
Qed.

Lemma nth_error_in_range {A} (l : list A) i x :
  nth_error l i = Some x -> (i < List.length l)%nat.
Proof. intros H. apply nth_error_Some. congruence. Qed.

(** X10: every value of the moving average that is a number lies between the
    least and the greatest sales of the view. *)
Theorem moving_avg_within_range :
  forall (filtered : DataFrame) (window : nat) (lo hi : Z) (i : nat) (q : Q),
    (forall r, In r filtered -> (lo <= sales r <= hi)%Z) ->
    nth_error (moving_avg window filtered) i = Some (Finite q) ->
    inject_Z lo <= q <= inject_Z hi.
Proof.
  intros filtered window lo hi i q Hb Hq. unfold moving_avg in Hq.
  pose proof (nth_error_in_range _ _ _ Hq) as Hi.
  rewrite rolling_mean_length in Hi.
  rewrite rolling_mean_nth in Hq by exact Hi.
  destruct (S i <? window)%nat; [ discriminate | ].
  injection Hq as Hq.
  apply (series_mean_between _ _ _ _ Hq).
  intros x Hx. unfold trailing in Hx.
  apply In_firstn_in, In_skipn_in in Hx.
  apply in_map_iff in Hx. destruct Hx as (r & <- & Hr).
  apply Hb. eapply Permutation_in; [ apply sort_values_perm | exact Hr ].
Qed.

Lemma moving_avg_within_range_witness :
  inject_Z 50 <= 125 # 1 <= inject_Z 200.
Proof.
  apply (moving_avg_within_range scenario 2 50 200 2 (125 # 1)).
  - intros r Hr. simpl in Hr.
    destruct Hr as [<- | [<- | [<- | []]]]; simpl; lia.
  - reflexivity.
Defined.

(** ** Rows given in another order *)

Lemma date_le_antisym a b : date_le a b -> date_le b a -> a = b.
Proof.
  destruct a as [y m d], b as [y' m' d']. unfold date_le. simpl.
  intros H1 H2. f_equal; lia.
Qed.

Lemma date_le_refl a : date_le a a.
Proof. unfold date_le. lia. Qed.

Lemma NoDup_map_injective {A B} (f : A -> B) (l : list A) a b :
  NoDup (map f l) -> In a l -> In b l -> f a = f b -> a = b.
Proof.
  induction l as [| x l IH]; simpl; intros Hnd Ha Hb E; [ contradiction | ].
  inversion Hnd as [| ? ? Hx Hl]; subst.
  destruct Ha as [-> | Ha], Hb as [-> | Hb]; auto.
  - exfalso. apply Hx. rewrite E. now apply in_map.
  - exfalso. apply Hx. rewrite <- E. now apply in_map.
Qed.

Lemma sorted_distinct_dates_unique (l1 : DataFrame) : forall l2,
  StronglySorted rows_by_date l1 -> StronglySorted rows_by_date l2 ->
  Permutation l1 l2 -> NoDup (map date l1) -> l1 = l2.
Proof.
  induction l1 as [| x l1 IH]; intros l2 H1 H2 Hp Hnd.
  - now apply Permutation_nil in Hp.
  - destruct l2 as [| y l2].
    + apply Permutation_sym, Permutation_nil in Hp. discriminate.
    + inversion H1 as [| ? ? Hs1 Hf1]; inversion H2 as [| ? ? Hs2 Hf2]; subst.
      assert (Hx : In x (y :: l2))
        by (eapply Permutation_in; [ exact Hp | simpl; auto ]).
      assert (Hy : In y (x :: l1))
        by (eapply Permutation_in;
            [ apply Permutation_sym; exact Hp | simpl; auto ]).
      assert (Hyx : date_le (date y) (date x)).
      { destruct Hx as [-> | Hx]; [ apply date_le_refl | ].
        rewrite Forall_forall in Hf2. now apply Hf2. }
      assert (Hxy : date_le (date x) (date y)).
      { destruct Hy as [-> | Hy]; [ apply date_le_refl | ].
        rewrite Forall_forall in Hf1. now apply Hf1. }
      assert (E : x = y).
      { apply (NoDup_map_injective date (x :: l1)); simpl; auto.
        now apply date_le_antisym. }
      subst y. f_equal. apply IH; auto.
      * now apply Permutation_cons_inv with x.
      * now inversion Hnd.
Qed.

Lemma sort_values_strongly_sorted df :
  StronglySorted rows_by_date (sort_values df).
Proof.
  apply Sorted_StronglySorted; [ | apply sort_values_sorted ].
  intros a b c. unfold rows_by_date. apply date_le_trans.
Qed.

(** X11: when no two rows of the view share a date, the moving average does not
    depend on the order in which the rows stand in the view. *)
Theorem moving_avg_row_order :
  forall (a b : DataFrame) (window : nat),
    Permutation a b ->
    NoDup (map date a) ->
    moving_avg window a = moving_avg window b.
Proof.
  intros a b window Hp Hnd. unfold moving_avg.
  replace (sort_values b) with (sort_values a); [ reflexivity | ].
  apply sorted_distinct_dates_unique.
  - apply sort_values_strongly_sorted.
  - apply sort_values_strongly_sorted.
  - rewrite sort_values_perm, Hp. symmetry. apply sort_values_perm.
  - eapply Permutation_NoDup; [ | exact Hnd ].
    apply Permutation_map. symmetry. apply sort_values_perm.
Qed.

Lemma moving_avg_row_order_witness :
  moving_avg 2 scenario = moving_avg 2 (rev scenario).
Proof.
  apply (moving_avg_row_order scenario (rev scenario) 2).
  - apply Permutation_rev.
  - repeat constructor; simpl; intuition discriminate.
Defined.

(** * Properties of the grouped tables *)

(** ** Group keys *)

Lemma insert_key_perm k l : Permutation (insert_key k l) (k :: l).
Proof.
  induction l as [| y l IH]; simpl; auto.
  destruct (String.leb k y); auto.
  rewrite IH. apply perm_swap.
Qed.

Lemma sort_keys_perm l : Permutation (sort_keys l) l.
Proof.
  induction l as [| k l IH]; simpl; auto.
  rewrite insert_key_perm. now constructor.
Qed.

Lemma insert_key_hd k a l :
  keys_ascending a k -> HdRel keys_ascending a l ->
  HdRel keys_ascending a (insert_key k l).
Proof.
  intros Hak Hal. destruct l as [| y l]; simpl.
  - now constructor.
  - destruct (String.leb k y); constructor; auto. now inversion Hal.
Qed.

Lemma insert_key_sorted k l :
  Sorted keys_ascending l -> Sorted keys_ascending (insert_key k l).
Proof.
  induction 1 as [| y l Hs IH Hh]; simpl.
  - repeat constructor.
  - destruct (String.leb k y) eqn:E.
    + constructor; [ now constructor | ]. now constructor.
    + constructor; auto. apply insert_key_hd; auto.
      unfold keys_ascending.
      destruct (String.leb_total k y) as [H | H]; congruence.
Qed.

Lemma sort_keys_sorted l : Sorted keys_ascending (sort_keys l).
Proof.
  induction l as [| k l IH]; simpl; [ constructor | ].
  now apply insert_key_sorted.
Qed.

Lemma group_keys_In col k : In k (group_keys col) <-> In k col.
Proof.
  unfold group_keys. split; intros H.
  - apply unique_In. eapply Permutation_in; [ apply sort_keys_perm | exact H ].
  - eapply Permutation_in; [ symmetry; apply sort_keys_perm | ].
    now apply unique_In.
Qed.

Lemma group_keys_NoDup col : NoDup (group_keys col).
Proof.
  unfold group_keys. eapply Permutation_NoDup; [ | apply unique_NoDup ].
  symmetry. apply sort_keys_perm.
Qed.

(** ** Sums over the groups add up to the sum over the view *)

Lemma exact_sum_nil : exact_sum [] = 0%Z.
Proof. reflexivity. Qed.

Lemma sum_indicator (k : string) (v : Z) (keys : list string) :
  NoDup keys -> In k keys ->
  exact_sum (map (fun k' => if String.eqb k k' then v else 0%Z) keys) = v.
Proof.
  induction keys as [| y keys IH]; intros Hnd Hin; [ contradiction | ].
  inversion Hnd as [| ? ? Hy Hk]; subst.
  simpl map. rewrite exact_sum_cons.
  destruct (String.eqb k y) eqn:E.
  - apply String.eqb_eq in E. subst y.
    assert (Hz : exact_sum (map (fun k' => if String.eqb k k' then v else 0%Z)
                                 keys) = 0%Z).
    { clear IH Hnd Hin Hk. induction keys as [| z keys IHk]; [ reflexivity | ].
      simpl map. rewrite exact_sum_cons.
      destruct (String.eqb k z) eqn:Ez.
      - apply String.eqb_eq in Ez. subst z. exfalso. apply Hy. simpl. auto.
      - rewrite IHk; [ reflexivity | ]. intros H. apply Hy. simpl. auto. }
    rewrite Hz. lia.
  - apply String.eqb_neq in E.
    destruct Hin as [-> | Hin]; [ congruence | ].
    rewrite IH by assumption. lia.
Qed.

Lemma sum_of_zeros {A} (l : list A) : exact_sum (map (fun _ => 0%Z) l) = 0%Z.
Proof.
  induction l as [| x l IH]; [ reflexivity | ].
  simpl map. now rewrite exact_sum_cons, IH.
Qed.

Lemma sum_pointwise {A} (f g : A -> Z) (l : list A) :
  exact_sum (map (fun x => (f x + g x)%Z) l)
  = (exact_sum (map f l) + exact_sum (map g l))%Z.
Proof.
  induction l as [| x l IH]; [ reflexivity | ].
  simpl map. rewrite !exact_sum_cons, IH. lia.
Qed.

Lemma group_exact_sums_add_up (key : Row -> string) (value : Row -> Z)
    (keys : list string) (l : DataFrame) :
  NoDup keys -> (forall r, In r l -> In (key r) keys) ->
  exact_sum (map (fun k => exact_sum (map value (group key k l))) keys)
  = exact_sum (map value l).
Proof.
  intros Hnd. induction l as [| r l IH]; intros Hin.
  - unfold group. cbn [filter map]. rewrite exact_sum_nil.
    apply sum_of_zeros.
  - change (map value (r :: l)) with (value r :: map value l).
    rewrite exact_sum_cons.
    rewrite <- IH by (intros x Hx; apply Hin; simpl; auto).
    rewrite <- (sum_indicator (key r) (value r) keys Hnd)
      by (apply Hin; simpl; auto).
    rewrite <- sum_pointwise. f_equal. apply map_ext. intros k.
    unfold group. simpl filter.
    destruct (String.eqb (key r) k); [ | lia ].
    simpl map. now rewrite exact_sum_cons.
Qed.

Lemma wrap_inner_sums {A} (f : A -> Z) (l : list A) :
  wrap64 (exact_sum (map (fun x => wrap64 (f x)) l))
  = wrap64 (exact_sum (map f l)).
Proof.
  induction l as [| x l IH]; [ reflexivity | ].
  simpl map. rewrite !exact_sum_cons.
  rewrite wrap64_add_l, <- wrap64_add_r, IH. apply wrap64_add_r.
Qed.

(** The 64-bit sums of the groups add up, in 64 bits, to the 64-bit sum of
    the view. *)
Lemma group_sums_add_up (key : Row -> string) (value : Row -> Z)
    (keys : list string) (l : DataFrame) :
  NoDup keys -> (forall r, In r l -> In (key r) keys) ->
  series_sum (map (fun k => series_sum (map value (group key k l))) keys)
  = series_sum (map value l).
Proof.
  intros Hnd Hin. rewrite !series_sum_wrap.
  rewrite <- (group_exact_sums_add_up key value keys l Hnd Hin).
  rewrite <- (wrap_inner_sums
                (fun k => exact_sum (map value (group key k l))) keys).
  f_equal. f_equal. apply map_ext. intros k. apply series_sum_wrap.
Qed.

Lemma group_In key k l r : In r (group key k l) <-> In r l /\ key r = k.
Proof. unfold group. now rewrite filter_In, String.eqb_eq. Qed.

(** X12: the table of sales per category has one line for each category present
    in the view, each once and in ascending order of the category; a line
    holds the total sales of the rows of its category; and the lines add up to
    the total sales of the view. *)
Theorem category_sales_groups :
  forall filtered : DataFrame,
    let table := category_sales filtered in
    NoDup (map fst table)
    /\ Sorted keys_ascending (map fst table)
    /\ (forall k, In k (map fst table) <->
                  exists r, In r filtered /\ category r = k)
    /\ (forall k s, In (k, s) table ->
                    s = total_sales (group category k filtered))
    /\ series_sum (map snd table) = total_sales filtered.
Proof.
  intros filtered table. subst table. unfold category_sales.
  rewrite !map_map. cbn [fst snd]. rewrite map_id.
  split; [ apply group_keys_NoDup | ].
  split; [ apply sort_keys_sorted | ].
  split; [ | split ].
  - intros k. rewrite group_keys_In, in_map_iff.
    split; intros (r & H1 & H2); exists r; auto.
  - intros k s H. apply in_map_iff in H. destruct H as (k' & [= <- <-] & _).
    reflexivity.
  - apply group_sums_add_up; [ apply group_keys_NoDup | ].
    intros r Hr. apply group_keys_In. now apply in_map.
Qed.

(** ** Profit rate per category *)

(** X13: every line of the per-category profit table stands for a category with
    at least one row in the view and carries the sums of that category; its
    profit rate is taken without a guard: with zero sales it is an infinity
    or NaN, otherwise one hundred times profit over sales. *)
Theorem category_profit_rate_per_group :
  forall (filtered : DataFrame) (e : CategoryProfit),
    In e (category_profit filtered) ->
    let g := group category (cp_category e) filtered in
    g <> []
    /\ cp_sales e = total_sales g
    /\ cp_profit e = total_profit g
    /\ cp_profit_rate e = profit_rate g
    /\ (cp_sales e = 0%Z ->
        cp_profit_rate e
        = if (cp_profit e =? 0)%Z then NaN
          else if (0 <? cp_profit e)%Z then PosInf else NegInf)
    /\ (cp_sales e <> 0%Z ->
        exists q, cp_profit_rate e = Finite q
                  /\ q == inject_Z (100 * cp_profit e) / inject_Z (cp_sales e)).
Proof.
  intros filtered e He g. subst g. unfold category_profit in He.
  apply in_map_iff in He. destruct He as (k & <- & Hk).
  cbn [cp_category cp_sales cp_profit cp_profit_rate].
  apply group_keys_In, in_map_iff in Hk. destruct Hk as (r & Hr & Hin).
  split.
  - intros E. assert (H : In r (group category k filtered))
      by (apply group_In; auto).
    rewrite E in H. contradiction.
  - split; [ reflexivity | ]. split; [ reflexivity | ].
    split; [ reflexivity | ].
    fold (total_sales (group category k filtered)).
    fold (total_profit (group category k filtered)).
    fold (profit_rate (group category k filtered)).
    split.
    + intros Hz. now apply profit_rate_division_by_zero.
    + intros Hz. now apply profit_rate_quotient.
Qed.

Lemma category_profit_rate_per_group_witness :
  let e := mkCategoryProfit "B" 50 (-5) (Finite (-10 # 1)) in
  let g := group category (cp_category e) scenario in
  g <> []
  /\ cp_sales e = total_sales g
  /\ cp_profit e = total_profit g
  /\ cp_profit_rate e = profit_rate g
  /\ (cp_sales e = 0%Z ->
      cp_profit_rate e
      = if (cp_profit e =? 0)%Z then NaN
        else if (0 <? cp_profit e)%Z then PosInf else NegInf)
  /\ (cp_sales e <> 0%Z ->
      exists q, cp_profit_rate e = Finite q
                /\ q == inject_Z (100 * cp_profit e) / inject_Z (cp_sales e)).
Proof.
  apply (category_profit_rate_per_group scenario).
  vm_compute. right. left. reflexivity.
Defined.

(** ** The table per region *)

Lemma round_half_even_near (q : Q) :
  inject_Z (round_half_even q) - (1 # 2) <= q
  /\ q <= inject_Z (round_half_even q) + (1 # 2).
Proof.
  destruct q as [a b]. unfold round_half_even. cbn [Qnum Qden].
  pose proof (Z.div_mod a (Z.pos b) ltac:(lia)) as Hd.
  pose proof (Z.mod_pos_bound a (Z.pos b) ltac:(lia)) as Hm.
  destruct (Z.compare_spec (2 * (a mod Z.pos b)) (Z.pos b)) as [E | E | E];
    [ destruct (Z.even (a / Z.pos b)) | | ];
    unfold Qle, Qplus, Qminus, Qopp, inject_Z; cbn [Qnum Qden Qplus];
    split; nia.
Qed.

(** Rounding to two decimals never crosses an integer. *)
Lemma round2_between (q : Q) (lo hi : Z) :
  inject_Z lo <= q <= inject_Z hi ->
  exists p, round2 (Finite q) = Finite p /\ inject_Z lo <= p <= inject_Z hi.
Proof.
  intros [Hlo Hhi]. eexists. split; [ reflexivity | ].
  rewrite Qred_correct.
  destruct (round_half_even_near (q * 100)) as [H1 H2].
  assert (Hl : (100 * lo <= round_half_even (q * 100))%Z).
  { assert (E : inject_Z (100 * lo) - 1 < inject_Z (round_half_even (q * 100))).
    { rewrite inject_Z_mult. change (inject_Z 100) with 100. lra. }
    change 1 with (inject_Z 1) in E. unfold Qminus in E.
    rewrite <- inject_Z_opp, <- inject_Z_plus, <- Zlt_Qlt in E. lia. }
  assert (Hh : (round_half_even (q * 100) <= 100 * hi)%Z).
  { assert (E : inject_Z (round_half_even (q * 100)) < inject_Z (100 * hi) + 1).
    { rewrite inject_Z_mult. change (inject_Z 100) with 100. lra. }
    change 1 with (inject_Z 1) in E.
    rewrite <- inject_Z_plus, <- Zlt_Qlt in E. lia. }
  rewrite Zle_Qle, inject_Z_mult in Hl, Hh.
  change (inject_Z 100) with 100 in Hl, Hh.
  split.
  - apply Qle_shift_div_l; [ reflexivity | ]. lra.
  - apply Qle_shift_div_r; [ reflexivity | ]. lra.
Qed.

Lemma rounded_mean_between col lo hi :
  col <> [] ->
  (forall x, In x col -> (lo <= x <= hi)%Z) ->
  exists p, round2 (series_mean col) = Finite p
            /\ inject_Z lo <= p <= inject_Z hi.
Proof.
  intros Hne Hb. rewrite series_mean_finite by exact Hne.
  apply round2_between.
  eapply series_mean_between; [ now apply series_mean_finite | exact Hb ].
Qed.

(** X14: every line of the per-region table stands for a region with at least
    one row in the view.  Its sums are the totals of that region; its means
    are finite (never NaN), and rounding them to two decimals does not take
    them out of the range of the region's values: any two integers that
    bound the region's sales (or profits) also bound the mean shown. *)
Theorem region_data_lines :
  forall (filtered : DataFrame) (e : RegionRow),
    In e (region_data filtered) ->
    let g := group region (rr_region e) filtered in
    g <> []
    /\ rr_sales_sum e = total_sales g
    /\ rr_profit_sum e = total_profit g
    /\ (forall lo hi : Z,
          (forall r, In r g -> (lo <= sales r <= hi)%Z) ->
          exists p, rr_sales_mean e = Finite p
                    /\ inject_Z lo <= p <= inject_Z hi)
    /\ (forall lo hi : Z,
          (forall r, In r g -> (lo <= profit r <= hi)%Z) ->
          exists p, rr_profit_mean e = Finite p
                    /\ inject_Z lo <= p <= inject_Z hi).
Proof.
  intros filtered e He g. subst g. unfold region_data in He.
  apply in_map_iff in He. destruct He as (k & <- & Hk).
  cbn [rr_region rr_sales_sum rr_sales_mean rr_profit_sum rr_profit_mean].
  apply group_keys_In, in_map_iff in Hk. destruct Hk as (r & Hr & Hin).
  assert (Hne : group region k filtered <> []).
  { intros E. assert (H : In r (group region k filtered))
      by (apply group_In; auto).
    rewrite E in H. contradiction. }
  split; [ exact Hne | ].
  split; [ reflexivity | ]. split; [ reflexivity | ].
  split.
  - intros lo hi Hb. apply rounded_mean_between.
    + destruct (group region k filtered); [ congruence | discriminate ].
    + intros x Hx. apply in_map_iff in Hx. destruct Hx as (r' & <- & Hr').
      now apply Hb.
  - intros lo hi Hb. apply rounded_mean_between.
    + destruct (group region k filtered); [ congruence | discriminate ].
    + intros x Hx. apply in_map_iff in Hx. destruct Hx as (r' & <- & Hr').
      now apply Hb.
Qed.

Lemma region_data_lines_witness :
  let filtered := scenario ++ [mkRow (jan 4) "B" "West" 25 1;
                               mkRow (jan 5) "B" "West" 26 1] in
  let e := mkRegionRow "West" 101 (Finite (3367 # 100)) (-3) (Finite (-1 # 1)) in
  let g := group region (rr_region e) filtered in
  g <> []
  /\ rr_sales_sum e = total_sales g
  /\ rr_profit_sum e = total_profit g
  /\ (forall lo hi : Z,
        (forall r, In r g -> (lo <= sales r <= hi)%Z) ->
        exists p, rr_sales_mean e = Finite p
                  /\ inject_Z lo <= p <= inject_Z hi)
  /\ (forall lo hi : Z,
        (forall r, In r g -> (lo <= profit r <= hi)%Z) ->
        exists p, rr_profit_mean e = Finite p
                  /\ inject_Z lo <= p <= inject_Z hi).
Proof.
  apply (region_data_lines
           (scenario ++ [mkRow (jan 4) "B" "West" 25 1;
                         mkRow (jan 5) "B" "West" 26 1])).
  vm_compute. right. left. reflexivity.
Defined.

(** * Further properties of the whole run *)

Local Open Scope Z_scope.

(** ** The name of the downloaded file *)

Lemma digit_injective j k :
  0 <= j <= 9 -> 0 <= k <= 9 -> digit j = digit k -> j = k.
Proof.
  intros Hj Hk E. apply (f_equal digit_val) in E.
  rewrite !digit_val_digit in E by assumption. congruence.
Qed.

Lemma two_digits_injective a b :
  0 <= a < 100 -> 0 <= b < 100 ->
  digit (a / 10) = digit (b / 10) -> digit (a mod 10) = digit (b mod 10) ->
  a = b.
Proof.
  intros Ha Hb E1 E2.
  apply digit_injective in E1; [ | Z.to_euclidean_division_equations; lia .. ].
  apply digit_injective in E2; [ | Z.to_euclidean_division_equations; lia .. ].
  Z.to_euclidean_division_equations; lia.
Qed.

Lemma four_digits_injective a b :
  0 <= a < 10000 -> 0 <= b < 10000 ->
  digit (a / 1000) = digit (b / 1000) ->
  digit (a / 100 mod 10) = digit (b / 100 mod 10) ->
  digit (a / 10 mod 10) = digit (b / 10 mod 10) ->
  digit (a mod 10) = digit (b mod 10) ->
  a = b.
Proof.
  intros Ha Hb E1 E2 E3 E4.
  apply digit_injective in E1; [ | Z.to_euclidean_division_equations; lia .. ].
  apply digit_injective in E2; [ | Z.to_euclidean_division_equations; lia .. ].
  apply digit_injective in E3; [ | Z.to_euclidean_division_equations; lia .. ].
  apply digit_injective in E4; [ | Z.to_euclidean_division_equations; lia .. ].
  Z.to_euclidean_division_equations; lia.
Qed.

(** X15: the file name has thirty-three characters whatever the clock shows, and
    two downloads made at different seconds get different names. *)
Theorem file_name_distinct_per_second :
  forall a b : DateTime,
    clock_reading a -> clock_reading b ->
    String.length (file_name a) = 33%nat
    /\ (file_name a = file_name b -> a = b).
Proof.
  intros a b Ha Hb. split; [ reflexivity | ].
  intros E. unfold file_name in E.
  apply (f_equal list_ascii_of_string) in E.
  rewrite !list_ascii_of_string_of_list_ascii in E.
  apply app_inv_head in E. apply app_inv_tail in E.
  destruct a as [[ya ma da] Ha' Ma Sa], b as [[yb mb db] Hb' Mb Sb].
  unfold clock_reading in Ha, Hb. cbn [dt_date year month day hour minute second] in *.
  unfold strftime, pad4, pad2 in E.
  cbn [app dt_date year month day hour minute second] in E.
  injection E as E1 E2 E3 E4 E5 E6 E7 E8 E9 E10 E11 E12 E13 E14.
  assert (ya = yb) by (apply four_digits_injective; auto; lia).
  assert (ma = mb) by (apply two_digits_injective; auto; lia).
  assert (da = db) by (apply two_digits_injective; auto; lia).
  assert (Ha' = Hb') by (apply two_digits_injective; auto; lia).
  assert (Ma = Mb) by (apply two_digits_injective; auto; lia).
  assert (Sa = Sb) by (apply two_digits_injective; auto; lia).
  congruence.
Qed.

Lemma file_name_distinct_per_second_witness :
  String.length (file_name (mkDateTime (jan 3) 9 5 0)) = 33%nat
  /\ (file_name (mkDateTime (jan 3) 9 5 0)
      = file_name (mkDateTime (jan 3) 9 5 1) ->
      mkDateTime (jan 3) 9 5 0 = mkDateTime (jan 3) 9 5 1).
Proof.
  apply (file_name_distinct_per_second (mkDateTime (jan 3) 9 5 0)
                                       (mkDateTime (jan 3) 9 5 1));
    unfold clock_reading; simpl; lia.
Defined.

(** ** A file without a date column *)

(** X16: when the file that is read has no column named date, line 40 raises
    KeyError for that column, whether the file was uploaded or is the sample
    file, and whatever the widgets hold. *)
Theorem missing_date_column_raises :
  forall (text : string) (raw : RawFrame) (other : option string) (ui : Widgets),
    read_csv text = Done raw ->
    index_of "date" (columns raw) = None ->
    dashboard (Some text) other ui = Raised (KeyError "date")
    /\ dashboard None (Some text) ui = Raised (KeyError "date").
Proof.
  intros text raw other ui Hr Hi.
  unfold dashboard, read_source. rewrite Hr. cbn [bind]. unfold column.
  rewrite Hi. split; reflexivity.
Qed.

Lemma missing_date_column_raises_witness :
  dashboard (Some no_date_csv) None default_widgets = Raised (KeyError "date")
  /\ dashboard None (Some no_date_csv) default_widgets
     = Raised (KeyError "date").
Proof.
  apply (missing_date_column_raises no_date_csv
           (mkRaw ["day"; "category"; "region"; "sales"; "profit"]%string
                  [["2024-01-01"; "A"; "East"; "100"; "10"]%string]));
    reflexivity.
Defined.

(** ** When the run stops *)

Lemma traverse_not_stopped {A B} (f : A -> outcome B) (l : list A) :
  (forall x, f x <> Stopped) -> traverse f l <> Stopped.
Proof.
  intros Hf. induction l as [| x l IH]; simpl; [ discriminate | ].
  specialize (Hf x). destruct (f x); simpl; try congruence.
  destruct (traverse f l); simpl; congruence.
Qed.

Lemma column_not_stopped {A} (parse : string -> option A) name raw :
  column parse name raw <> Stopped.
Proof.
  unfold column. destruct (index_of name (columns raw)); [ | discriminate ].
  apply traverse_not_stopped. intros l.
  destruct (nth_error l n); [ | discriminate ].
  destruct (parse s); discriminate.
Qed.

Lemma raw_column_not_stopped name raw : raw_column name raw <> Stopped.
Proof.
  unfold raw_column. destruct (index_of name (columns raw)); [ | discriminate ].
  apply traverse_not_stopped. intros l.
  destruct (nth_error l n); discriminate.
Qed.

Lemma text_column_not_stopped name raw : text_column name raw <> Stopped.
Proof.
  unfold text_column. pose proof (raw_column_not_stopped name raw).
  destruct (raw_column name raw) as [cells | | e | ]; cbn [bind];
    try congruence.
  destruct (infer_dtype cells); try discriminate.
  apply traverse_not_stopped. intros cell. destruct (parse_text cell);
    discriminate.
Qed.

Lemma int_column_not_stopped name raw : int_column name raw <> Stopped.
Proof.
  unfold int_column. pose proof (raw_column_not_stopped name raw).
  destruct (raw_column name raw) as [cells | | e | ]; cbn [bind];
    try congruence.
  destruct (infer_dtype cells) as [[| c l] | values | ]; discriminate.
Qed.

Lemma read_csv_not_stopped text : read_csv text <> Stopped.
Proof.
  unfold read_csv.
  destruct (tokenize START_RECORD [] [] [] (list_ascii_of_string text))
    as [[| header body] | ]; try discriminate.
  destruct (forallb _ body); discriminate.
Qed.

Lemma read_source_stopped uploaded_file sample_data :
  read_source uploaded_file sample_data = Stopped ->
  uploaded_file = None /\ sample_data = None.
Proof.
  unfold read_source. destruct uploaded_file as [text | ].
  - intros H. now apply read_csv_not_stopped in H.
  - destruct sample_data as [text | ]; [ | auto ].
    intros H. now apply read_csv_not_stopped in H.
Qed.

(** X17: the run halts by [st.stop()] in exactly one situation: no file was
    uploaded and sample_data.csv does not exist.  No content of a file and no
    widget state makes it stop that way. *)
Theorem dashboard_stops_iff_no_source :
  forall (uploaded_file sample_data : option string) (ui : Widgets),
    dashboard uploaded_file sample_data ui = Stopped
    <-> uploaded_file = None /\ sample_data = None.
Proof.
  intros uploaded_file sample_data ui. split.
  - intros H. unfold dashboard in H.
    destruct (read_source uploaded_file sample_data) as [raw | | e | ] eqn:E;
      cbn [bind] in H; try discriminate;
      [ exfalso | now apply read_source_stopped ].
    pose proof (column_not_stopped parse_date "date" raw) as Nd.
    destruct (column parse_date "date" raw) as [dates | | e | ];
      cbn [bind] in H; try congruence.
    assert (Ni : forall chosen,
               date_input (series_min dates, series_max dates)
                          (series_min dates) (series_max dates) chosen
               <> Stopped).
    { intros chosen. unfold date_input.
      destruct (series_min dates), (series_max dates); discriminate. }
    specialize (Ni (chosen_date_range ui)).
    destruct (date_input _ _ _ _) as [date_range | | e | ];
      cbn [bind] in H; try congruence.
    pose proof (text_column_not_stopped "category" raw) as Nc.
    destruct (text_column "category" raw) as [category_col | | e | ];
      cbn [bind] in H; try congruence.
    pose proof (text_column_not_stopped "region" raw) as Ng.
    destruct (text_column "region" raw) as [region_col | | e | ];
      cbn [bind] in H; try congruence.
    pose proof (int_column_not_stopped "sales" raw) as Ns.
    destruct (int_column "sales" raw) as [sales_col | | e | ];
      cbn [bind] in H; try congruence.
    pose proof (int_column_not_stopped "profit" raw) as Np.
    destruct (int_column "profit" raw) as [profit_col | | e | ];
      cbn [bind] in H; congruence.
  - intros [-> ->]. reflexivity.
Qed.

(** ** The downloaded file as the next upload *)

Lemma load_source_loaded uploaded_file sample_data df :
  load_source uploaded_file sample_data = Done df -> Forall loaded_row df.
Proof.
  unfold load_source.
  destruct (read_source uploaded_file sample_data) as [raw | | e | ];
    cbn [bind]; try discriminate.
  apply typed_frame_loaded.
Qed.

(** A run that completes has loaded its frame. *)
Lemma dashboard_done_loaded uploaded_file sample_data ui page :
  dashboard uploaded_file sample_data ui = Done page ->
  exists df, load_source uploaded_file sample_data = Done df.
Proof.
  unfold dashboard, load_source, typed_frame.
  destruct (read_source uploaded_file sample_data) as [raw | | e | ];
    cbn [bind]; try discriminate.
  destruct (column parse_date "date" raw) as [dates | | e | ];
    cbn [bind]; try discriminate.
  destruct (date_input _ _ _ _) as [date_range | | e | ];
    cbn [bind]; try discriminate.
  destruct (text_column "category" raw) as [category_col | | e | ];
    cbn [bind]; try discriminate.
  destruct (text_column "region" raw) as [region_col | | e | ];
    cbn [bind]; try discriminate.
  destruct (int_column "sales" raw) as [sales_col | | e | ];
    cbn [bind]; try discriminate.
  destruct (int_column "profit" raw) as [profit_col | | e | ];
    cbn [bind]; try discriminate.
  eauto.
Qed.



(** * Further properties of the loader *)

(** ** More steps of the tokenizer *)

Lemma step_carriage_return st f row rows rest :
  cell_end st ->
  tokenize st f row rows (CR :: LF :: rest)
  = tokenize START_RECORD [] [] (end_line (end_field f row) rows) rest.
Proof. intros [-> | [-> | ->]]; reflexivity. Qed.

Lemma step_end_of_input st f row rows :
  cell_end st ->
  tokenize st f row rows [] = Some (rev (end_line (end_field f row) rows)).
Proof. intros [-> | [-> | ->]]; reflexivity. Qed.

Lemma step_blank_line e rows rest :
  tokenize START_RECORD [] [] rows (line_break e ++ rest)
  = tokenize START_RECORD [] [] rows rest.
Proof. destruct e; reflexivity. Qed.

Lemma skip_blank_lines blanks rows rest :
  tokenize START_RECORD [] [] rows
           (List.concat (map line_break blanks) ++ rest)
  = tokenize START_RECORD [] [] rows rest.
Proof.
  induction blanks as [| e blanks IH]; [ reflexivity | ].
  simpl map. simpl List.concat. rewrite <- app_assoc, step_blank_line.
  exact IH.
Qed.

(** ** Reading the cells of a line up to its end *)

Lemma read_joined cells : forall row rows,
  cells <> [] ->
  Forall (fun cell => has_cr cell = false) cells ->
  exists st f row',
    cell_end st
    /\ end_field f row' = rev cells ++ row
    /\ forall tail,
         tokenize START_FIELD [] row rows (join_cells cells ++ tail)
         = tokenize st f row' rows tail.
Proof.
  induction cells as [| cell cells IH]; intros row rows Hne Hcr.
  - congruence.
  - inversion Hcr as [| ? ? Hcell Hcells]; subst.
    destruct (read_cell cell row rows Hcell) as (st & Hst & Hread).
    destruct cells as [| cell' cells].
    + exists st, (rev (list_ascii_of_string cell)), row.
      split; [ exact Hst | ]. split; [ apply end_field_cell | exact Hread ].
    + destruct (IH (cell :: row) rows ltac:(discriminate) Hcells)
        as (st' & f & row' & Hst' & Hrow & Hjoin).
      exists st', f, row'. split; [ exact Hst' | ]. split.
      * rewrite Hrow. simpl rev. now rewrite <- !app_assoc.
      * intros tail.
        change (join_cells (cell :: cell' :: cells))
          with (write_cell cell ++ comma :: join_cells (cell' :: cells)).
        rewrite <- app_assoc, Hread, <- app_comm_cons.
        rewrite step_comma by exact Hst. rewrite end_field_cell.
        apply Hjoin.
Qed.

Lemma join_cells_head cell cells :
  leads cell = true ->
  exists c t, join_cells (cell :: cells) = c :: t
              /\ (c = dquote \/ starts_line c = true).
Proof.
  intros H. destruct (write_cell_head cell H) as (c & t & Hw & Hc).
  destruct cells as [| cell' cells].
  - exists c, t. simpl. auto.
  - exists c, (t ++ comma :: join_cells (cell' :: cells)).
    change (join_cells (cell :: cell' :: cells))
      with (write_cell cell ++ comma :: join_cells (cell' :: cells)).
    rewrite Hw. auto.
Qed.

(** From the start of a line, the cells of a well-led line are read up to
    the end of the last cell. *)
Lemma read_from_line_start line rows :
  well_led line ->
  exists st f row',
    cell_end st
    /\ end_field f row' = rev line
    /\ forall tail,
         tokenize START_RECORD [] [] rows (join_cells line ++ tail)
         = tokenize st f row' rows tail.
Proof.
  intros ((cell & cells & -> & Hl) & Hcr).
  destruct (read_joined (cell :: cells) [] rows ltac:(discriminate) Hcr)
    as (st & f & row' & Hst & Hrow & Hjoin).
  exists st, f, row'. split; [ exact Hst | ].
  split; [ now rewrite app_nil_r in Hrow | ].
  intros tail.
  destruct (join_cells_head cell cells Hl) as (c & t & Hw & Hc).
  rewrite <- Hjoin. rewrite Hw, <- app_comm_cons.
  now apply start_record_as_field.
Qed.

Lemma read_laid_line l rows rest :
  well_led (cells_of l) ->
  tokenize START_RECORD [] [] rows (write_laid_line l ++ rest)
  = tokenize START_RECORD [] [] (cells_of l :: rows) rest.
Proof.
  intros Hl. unfold write_laid_line.
  rewrite <- app_assoc, skip_blank_lines, <- app_assoc.
  destruct (read_from_line_start (cells_of l) rows Hl)
    as (st & f & row' & Hst & Hrow & Hread).
  rewrite Hread.
  destruct (ending l); simpl line_break; simpl app.
  - rewrite step_line_feed by exact Hst.
    unfold end_line. now rewrite Hrow, rev_involutive.
  - rewrite step_carriage_return by exact Hst.
    unfold end_line. now rewrite Hrow, rev_involutive.
Qed.

Lemma read_layout laid : forall last rows,
  Forall well_led (table_of laid last) ->
  tokenize START_RECORD [] [] rows (write_layout laid last)
  = Some (rev rows ++ table_of laid last).
Proof.
  induction laid as [| l laid IH]; intros last rows H.
  - unfold write_layout, table_of in *. simpl.
    destruct last as [cells | ].
    + inversion H as [| ? ? Hc _]; subst.
      destruct (read_from_line_start cells rows Hc)
        as (st & f & row' & Hst & Hrow & Hread).
      rewrite <- (app_nil_r (join_cells cells)), Hread.
      rewrite step_end_of_input by exact Hst.
      unfold end_line. rewrite Hrow, rev_involutive. simpl.
      reflexivity.
    + simpl. now rewrite app_nil_r.
  - unfold write_layout, table_of in *. simpl map in *. simpl List.concat.
    simpl app in H. inversion H as [| ? ? Hl Hrest]; subst.
    rewrite <- app_assoc, read_laid_line by exact Hl.
    rewrite IH by exact Hrest. simpl. now rewrite <- app_assoc.
Qed.

(** X19: the loader does not depend on the layout of the text: lines ended by a
    line feed or by carriage return and line feed, empty lines between them,
    and a last line without line break all give the table that the plain
    writing of the same lines gives. *)
Theorem read_csv_any_layout :
  forall (laid : list LaidLine) (last : option (list string)),
    Forall well_led (table_of laid last) ->
    tokenize START_RECORD [] [] [] (write_layout laid last)
    = Some (table_of laid last)
    /\ read_csv (string_of_list_ascii (write_layout laid last))
       = read_csv (string_of_list_ascii (write_rows (table_of laid last)))
    /\ load (string_of_list_ascii (write_layout laid last))
       = load (string_of_list_ascii (write_rows (table_of laid last))).
Proof.
  intros laid last H.
  assert (H1 : tokenize START_RECORD [] [] [] (write_layout laid last)
               = Some (table_of laid last))
    by (now rewrite read_layout).
  assert (H2 : read_csv (string_of_list_ascii (write_layout laid last))
               = read_csv (string_of_list_ascii
                             (write_rows (table_of laid last)))).
  { unfold read_csv. rewrite !list_ascii_of_string_of_list_ascii.
    rewrite H1, read_lines by exact H. reflexivity. }
  split; [ exact H1 | ]. split; [ exact H2 | ].
  unfold load. now rewrite H2.
Qed.

Lemma read_csv_any_layout_witness :
  let laid := [ mkLaidLine [] header EndCRLF;
                mkLaidLine [EndCRLF; EndLF]
                           ["2024-01-01"; "A"; "East, north"; "100"; "10"]%string
                           EndLF ] in
  let last := Some ["2024-01-02"; "A"; "East"; "200"; "20"]%string in
  tokenize START_RECORD [] [] [] (write_layout laid last)
  = Some (table_of laid last)
  /\ read_csv (string_of_list_ascii (write_layout laid last))
     = read_csv (string_of_list_ascii (write_rows (table_of laid last)))
  /\ load (string_of_list_ascii (write_layout laid last))
     = load (string_of_list_ascii (write_rows (table_of laid last))).
Proof.
  apply (read_csv_any_layout
           [ mkLaidLine [] header EndCRLF;
             mkLaidLine [EndCRLF; EndLF]
                        ["2024-01-01"; "A"; "East, north"; "100"; "10"]%string
                        EndLF ]
           (Some ["2024-01-02"; "A"; "East"; "200"; "20"]%string)).
  repeat (constructor;
          [ split; [ eexists _, _; split; reflexivity | repeat constructor ] | ]).
  constructor.
Defined.

(** ** Texts the reader rejects *)

(** X20: a file that holds no line, or only empty lines, has no header to read:
    the reader raises EmptyDataError and so does the run. *)
Theorem empty_file_raises :
  forall (blanks : list line_end) (sample_data : option string) (ui : Widgets),
    let text := string_of_list_ascii (List.concat (map line_break blanks)) in
    read_csv text = Raised EmptyDataError
    /\ dashboard (Some text) sample_data ui = Raised EmptyDataError.
Proof.
  intros blanks sample_data ui text. subst text.
  assert (H : read_csv (string_of_list_ascii
                          (List.concat (map line_break blanks)))
              = Raised EmptyDataError).
  { unfold read_csv. rewrite list_ascii_of_string_of_list_ascii.
    rewrite <- (app_nil_r (List.concat _)), skip_blank_lines. reflexivity. }
  split; [ exact H | ].
  unfold dashboard, read_source. now rewrite H.
Qed.

Lemma read_laid_lines laid : forall rows rest,
  Forall well_led (map cells_of laid) ->
  tokenize START_RECORD [] [] rows
           (List.concat (map write_laid_line laid) ++ rest)
  = tokenize START_RECORD [] [] (rev (map cells_of laid) ++ rows) rest.
Proof.
  induction laid as [| l laid IH]; intros rows rest H; [ reflexivity | ].
  simpl map in *. simpl List.concat. inversion H as [| ? ? Hl Hrest]; subst.
  rewrite <- app_assoc, read_laid_line by exact Hl.
  rewrite IH by exact Hrest. simpl rev. now rewrite <- app_assoc.
Qed.

Lemma open_quote_fails s : forall f row rows,
  existsb (fun c => Ascii.eqb c dquote) s = false ->
  tokenize IN_QUOTED_FIELD f row rows s = None.
Proof.
  induction s as [| c s IH]; intros f row rows H; [ reflexivity | ].
  simpl in H. apply orb_false_iff in H. destruct H as [Hc Hs].
  rewrite step_in_quoted by exact Hc. now apply IH.
Qed.

(** X21: a file whose last cell opens a quote that is never closed is rejected:
    after any number of complete lines, a line that starts with a quote and
    holds no other quote makes the reader raise ParserError, and the run with
    it. *)
Theorem unterminated_quote_raises :
  forall (laid : list LaidLine) (s : list ascii)
         (sample_data : option string) (ui : Widgets),
    Forall well_led (map cells_of laid) ->
    existsb (fun c => Ascii.eqb c dquote) s = false ->
    let text := string_of_list_ascii
                  (List.concat (map write_laid_line laid) ++ dquote :: s) in
    read_csv text = Raised ParserError
    /\ dashboard (Some text) sample_data ui = Raised ParserError.
Proof.
  intros laid s sample_data ui Hl Hs text. subst text.
  assert (H : read_csv (string_of_list_ascii
                          (List.concat (map write_laid_line laid)
                           ++ dquote :: s))
              = Raised ParserError).
  { unfold read_csv. rewrite list_ascii_of_string_of_list_ascii.
    rewrite read_laid_lines by exact Hl.
    change (tokenize START_RECORD [] [] (rev (map cells_of laid) ++ [])
                     (dquote :: s))
      with (tokenize IN_QUOTED_FIELD [] [] (rev (map cells_of laid) ++ []) s).
    now rewrite open_quote_fails. }
  split; [ exact H | ].
  unfold dashboard, read_source. now rewrite H.
Qed.

Lemma unterminated_quote_raises_witness :
  let text := string_of_list_ascii
                (List.concat (map write_laid_line [mkLaidLine [] header EndLF])
                 ++ dquote :: list_ascii_of_string "2024-01-01,A,East,100,10") in
  read_csv text = Raised ParserError
  /\ dashboard (Some text) None default_widgets = Raised ParserError.
Proof.
  apply (unterminated_quote_raises [mkLaidLine [] header EndLF]
           (list_ascii_of_string "2024-01-01,A,East,100,10")).
  - repeat (constructor;
            [ split; [ eexists _, _; split; reflexivity | repeat constructor ] | ]).
    constructor.
  - reflexivity.
Defined.
